(** * next-typesafe-api: request validation pipeline and OpenAPI registration

    A shallow embedding of [src/api-handler.ts], [src/openapi.ts] and the
    types of [src/types.ts], followed by the properties of the dispatch
    pipeline and of route registration.

    JavaScript values are a small tagged union, plain objects are
    insertion-ordered association lists with assignment semantics, promises
    and calls into user code are represented by their settled result, and
    the function body of [apiHandler] is written in a writer monad whose
    completions follow the source: fall through, [return], or [throw]. *)

From Stdlib Require Import String Ascii List ZArith NArith Bool Lia.
From Stdlib Require Import Permutation Sorted.
Import ListNotations.
Local Open Scope string_scope.
Local Open Scope list_scope.

(* ================================================================== *)
(** ** JavaScript values and plain objects *)
(* ================================================================== *)

#[local] Set Warnings "-register-all".

Inductive Value : Type :=
| VUndefined
| VNull
| VBool (b : bool)
| VNum (n : Z)
| VStr (s : string)
| VArr (items : list Value)
| VObj (fields : list (string * Value)).

(** A plain object used as a map: keys in the order they were created, no
    duplicates as long as it is only built with [obj_set].  The place of
    integer-like keys is settled by [own_properties] below. *)
Definition Obj (A : Type) : Type := list (string * A).

(** [o[k] = v]: overwrite in place when the key exists, append otherwise. *)
Fixpoint obj_set {A} (o : Obj A) (k : string) (v : A) : Obj A :=
  match o with
  | [] => [(k, v)]
  | (k', v') :: rest =>
      if String.eqb k' k then (k', v) :: rest
      else (k', v') :: obj_set rest k v
  end.

Fixpoint obj_get {A} (o : Obj A) (k : string) : option A :=
  match o with
  | [] => None
  | (k', v') :: rest => if String.eqb k' k then Some v' else obj_get rest k
  end.

(** [Object.keys(o)] *)
Definition obj_keys {A} (o : Obj A) : list string := map fst o.

Definition has_key {A} (o : Obj A) (k : string) : Prop := In k (obj_keys o).

(** [{...a, ...b}] *)
Definition obj_spread {A} (a b : Obj A) : Obj A :=
  fold_left (fun o kv => obj_set o (fst kv) (snd kv)) b a.

(** *** The order of own properties

    An object lists its integer-like keys first, in ascending order, and
    then its other keys in the order they were created. *)

Definition is_digit (c : ascii) : bool :=
  (48 <=? nat_of_ascii c)%nat && (nat_of_ascii c <=? 57)%nat.

Fixpoint digits_value (s : string) (acc : N) : option N :=
  match s with
  | EmptyString => Some acc
  | String c rest =>
      if is_digit c
      then digits_value rest (acc * 10 + (N_of_ascii c - 48))%N
      else None
  end.

(** The array index a key denotes: a canonical decimal numeral (no sign,
    no leading zero) below 2^32 - 1. *)
Definition array_index (k : string) : option N :=
  match k with
  | EmptyString => None
  | String c rest =>
      if Ascii.eqb c "0" then
        match rest with EmptyString => Some 0%N | _ => None end
      else
        match digits_value k 0%N with
        | Some n => if (n <=? 4294967294)%N then Some n else None
        | None => None
        end
  end.

Definition is_index {A} (kv : string * A) : bool :=
  match array_index (fst kv) with Some _ => true | None => false end.

Definition index_of {A} (kv : string * A) : N :=
  match array_index (fst kv) with Some n => n | None => 0%N end.

Fixpoint insert_by_index {A} (kv : string * A) (sorted : Obj A) : Obj A :=
  match sorted with
  | [] => [kv]
  | kv' :: rest =>
      if (index_of kv <=? index_of kv')%N then kv :: sorted
      else kv' :: insert_by_index kv rest
  end.

(** The properties of an object built by the assignments [o], in the
    order [Object.keys], [JSON.stringify] and a schema see them. *)
Definition own_properties {A} (o : Obj A) : Obj A :=
  fold_right insert_by_index [] (filter is_index o)
  ++ filter (fun kv => negb (is_index kv)) o.

(** [entries.forEach((value, key) => { target[key] = value })] starting from
    the literal [{}].  A repeated key keeps its last value.  Assigning to
    [__proto__] goes to the setter inherited from [Object.prototype] and
    creates no property. *)
Definition collect_entries {A} (entries : list (string * A)) : Obj A :=
  own_properties
    (obj_spread []
       (filter (fun kv => negb (String.eqb (fst kv) "__proto__")) entries)).

(** Truthiness, as tested by [&&], [||], [!] and [if]. *)
Definition truthy (v : Value) : bool :=
  match v with
  | VUndefined | VNull => false
  | VBool b => b
  | VNum n => negb (Z.eqb n 0)
  | VStr s => negb (String.eqb s "")
  | VArr _ | VObj _ => true
  end.

(** [s || d] on an optional string: [undefined] and [''] are both falsy. *)
Definition or_string (s : option string) (d : string) : string :=
  match s with
  | Some s' => if String.eqb s' "" then d else s'
  | None => d
  end.

(** [n || d] on an optional number: [undefined] and [0] are both falsy. *)
Definition or_number (n : option Z) (d : Z) : Z :=
  match n with
  | Some n' => if Z.eqb n' 0 then d else n'
  | None => d
  end.

(** [list.includes(s)] on an array of strings. *)
Definition includes (l : list string) (s : string) : bool :=
  existsb (String.eqb s) l.

(** Thrown values: [throw] accepts any value. *)
Definition Exn : Type := Value.

(** The result of a call into code the pipeline does not own (a schema, an
    auth handler, the business handler, a read of the request), or of
    awaiting the promise it returns. *)
Inductive Outcome (A : Type) : Type :=
| Done (a : A)
| Raised (e : Exn).
Arguments Done {A} a.
Arguments Raised {A} e.

(* ================================================================== *)
(** ** Collaborators: zod, the request, the response *)
(* ================================================================== *)

(** [ZodError]: only [format()] is used by the pipeline. *)
Record ZodError : Type := { format : Value }.

Inductive SafeParseReturn : Type :=
| SafeParseSuccess (data : Value)
| SafeParseError (error : ZodError).

(** The classes tested with [instanceof] at registration. *)
Inductive ZodKind : Type := ZodObject | ZodEffects | ZodOther.

Record ZodType : Type := {
  kind : ZodKind;
  safeParse : Value -> Outcome SafeParseReturn
}.

(** The part of [NextRequest] the pipeline reads.  [json] and [formData]
    hold what awaiting [request.json()] and [request.formData()] gives;
    the two reads are independent of each other, as in the mock request of
    the tests.  [searchParams] and [headers] hold the entries in the order
    [forEach] visits them; a header has one entry per name, and the
    collection gives the name in lower case. *)
Record NextRequest : Type := {
  method : string;
  json : Outcome Value;
  formData : Outcome (list (string * Value));
  searchParams : list (string * string);
  headers : list (string * string)
}.

(** The second argument of the route handler; [context?.params]. *)
Record Context : Type := { params : Value }.

Definition context_params (context : option Context) : Value :=
  match context with
  | Some c => params c
  | None => VUndefined
  end.

Record NextResponse : Type := { status : Z; body : Value }.

(** The errors the platform throws, by the name of their class. *)
Definition TypeError : Exn := VObj [("name", VStr "TypeError")].
Definition RangeError : Exn := VObj [("name", VStr "RangeError")].

(** A status that allows no body. *)
Definition null_body_status (s : Z) : bool :=
  (s =? 204)%Z || (s =? 205)%Z || (s =? 304)%Z.

(** A status [NextResponse.json] accepts. *)
Definition valid_status (s : Z) : bool :=
  (200 <=? s)%Z && (s <=? 599)%Z && negb (null_body_status s).

(** The status of a [ResponseInit] is an [unsigned short]: an integer
    outside its range is reduced by the remainder of the division by
    2^16, which keeps the sign. *)
Definition to_unsigned_short (s : Z) : Z := Z.rem s 65536.

(** [NextResponse.json(body, { status })]; the status defaults to 200.
    It throws a [TypeError] when the body has no JSON text ([undefined]),
    a [RangeError] when the status is outside 200-599, and a [TypeError]
    when the status allows no body. *)
Definition NextResponse_json (b : Value) (init : option Z) : Outcome NextResponse :=
  let s := match init with Some s => to_unsigned_short s | None => 200%Z end in
  match b with
  | VUndefined => Raised TypeError
  | _ =>
      if (200 <=? s)%Z && (s <=? 599)%Z then
        if null_body_status s then Raised TypeError
        else Done {| status := s; body := b |}
      else Raised RangeError
  end.

(* ================================================================== *)
(** ** [src/types.ts] *)
(* ================================================================== *)

Record AuthResult : Type := {
  success : bool;
  user : Value;
  error : option string;
  auth_status : option Z
}.

Definition AuthHandler : Type := NextRequest -> Value -> Outcome AuthResult.

Record AuthConfig : Type := {
  auth_handler : AuthHandler;
  auth_options : Value;
  scheme : option string
}.

Record ResponseConfig : Type := {
  resp_description : string;
  resp_content : Obj ZodType
}.

Record OpenApiMetadata : Type := {
  summary : string;
  description : option string;
  tags : option (list string);
  operationId : option string;
  includeInDocs : option bool;
  requestBody : option (Obj ZodType);
  responses : Obj ResponseConfig
}.

Inductive HttpMethod : Type :=
| get | post | put | delete | patch | options_ | head.

Definition HttpMethod_toLowerCase (m : HttpMethod) : string :=
  match m with
  | get => "get" | post => "post" | put => "put" | delete => "delete"
  | patch => "patch" | options_ => "options" | head => "head"
  end.

(** The argument object of the business handler. *)
Record HandlerParams : Type := {
  hp_body : Value;
  hp_query : Value;
  hp_pathParams : Value;
  hp_headers : Value;
  hp_user : Value;
  hp_request : NextRequest
}.

Record ApiHandlerOptions : Type := {
  bodySchema : option ZodType;
  querySchema : option ZodType;
  pathParamsSchema : option ZodType;
  headerSchema : option ZodType;
  formDataSchema : option ZodType;
  auth : option AuthConfig;
  responseSchema : option ZodType;
  openapi : option OpenApiMetadata;
  handler : HandlerParams -> Outcome Value
}.

(* ================================================================== *)
(** ** Control flow of the handler body *)
(* ================================================================== *)

Inductive Slot : Type := SBody | SFormData | SQuery | SPathParams | SHeaders.

(** Calls that leave the pipeline, in the order they are made. *)
Inductive Event : Type :=
| EvAuth (opts : Value)                 (* options.auth.handler(request, opts) *)
| EvJson                                (* request.json() *)
| EvFormData                            (* request.formData() *)
| EvSafeParse (slot : Slot) (raw : Value)  (* schema.safeParse(raw) *)
| EvHandler (p : HandlerParams)         (* options.handler(p) *)
| EvConsoleError (e : Exn).             (* console.error(..., e) *)

(** How a block of statements ends. *)
Inductive Completion (A : Type) : Type :=
| Normal (a : A)                 (* falls through with the locals [a] *)
| Returned (r : NextResponse)    (* a [return] statement was executed *)
| Thrown (e : Exn).              (* an exception propagates *)
Arguments Normal {A} a.
Arguments Returned {A} r.
Arguments Thrown {A} e.

Definition M (A : Type) : Type := list Event * Completion A.

Definition ret {A} (a : A) : M A := ([], Normal a).

Definition bind {A B} (m : M A) (f : A -> M B) : M B :=
  match m with
  | (evs, Normal a) => let (evs', c) := f a in (evs ++ evs', c)
  | (evs, Returned r) => (evs, Returned r)
  | (evs, Thrown e) => (evs, Thrown e)
  end.

Notation "x <- m ;; k" := (bind m (fun x => k))
  (at level 61, m at next level, right associativity).
Notation "m ;;; k" := (bind m (fun _ => k))
  (at level 61, right associativity).

Definition emit (ev : Event) : M unit := ([ev], Normal tt).

Definition return_ {A} (r : NextResponse) : M A := ([], Returned r).

(** Use the result of a call or [await] a settled promise. *)
Definition settle {A} (o : Outcome A) : M A :=
  match o with
  | Done a => ([], Normal a)
  | Raised e => ([], Thrown e)
  end.

(** [try { m } catch (error) { h error }] *)
Definition try_catch {A} (m : M A) (h : Exn -> M A) : M A :=
  match m with
  | (evs, Thrown e) => let (evs', c) := h e in (evs ++ evs', c)
  | other => other
  end.

(* ================================================================== *)
(** ** [createApiHandler] *)
(* ================================================================== *)

(** The [let] variables and the [errors] object of [apiHandler]. *)
Record Locals : Type := {
  l_body : Value;
  l_query : Value;
  l_pathParams : Value;
  l_headers : Value;
  l_user : Value;
  errors : Obj Value
}.

Definition initLocals : Locals :=
  {| l_body := VUndefined; l_query := VUndefined; l_pathParams := VUndefined;
     l_headers := VUndefined; l_user := VUndefined; errors := [] |}.

Definition set_body (st : Locals) (v : Value) : Locals :=
  {| l_body := v; l_query := l_query st; l_pathParams := l_pathParams st;
     l_headers := l_headers st; l_user := l_user st; errors := errors st |}.
Definition set_query (st : Locals) (v : Value) : Locals :=
  {| l_body := l_body st; l_query := v; l_pathParams := l_pathParams st;
     l_headers := l_headers st; l_user := l_user st; errors := errors st |}.
Definition set_pathParams (st : Locals) (v : Value) : Locals :=
  {| l_body := l_body st; l_query := l_query st; l_pathParams := v;
     l_headers := l_headers st; l_user := l_user st; errors := errors st |}.
Definition set_headers (st : Locals) (v : Value) : Locals :=
  {| l_body := l_body st; l_query := l_query st; l_pathParams := l_pathParams st;
     l_headers := v; l_user := l_user st; errors := errors st |}.
Definition set_user (st : Locals) (v : Value) : Locals :=
  {| l_body := l_body st; l_query := l_query st; l_pathParams := l_pathParams st;
     l_headers := l_headers st; l_user := v; errors := errors st |}.
(** [errors[k] = v] *)
Definition set_error (st : Locals) (k : string) (v : Value) : Locals :=
  {| l_body := l_body st; l_query := l_query st; l_pathParams := l_pathParams st;
     l_headers := l_headers st; l_user := l_user st;
     errors := obj_set (errors st) k v |}.

Definition call_auth (a : AuthConfig) (request : NextRequest) : M AuthResult :=
  emit (EvAuth (auth_options a)) ;;;
  settle (auth_handler a request (auth_options a)).

Definition call_safeParse (slot : Slot) (schema : ZodType) (raw : Value)
  : M SafeParseReturn :=
  emit (EvSafeParse slot raw) ;;; settle (safeParse schema raw).

Definition request_json (request : NextRequest) : M Value :=
  emit EvJson ;;; settle (json request).

Definition request_formData (request : NextRequest) : M (list (string * Value)) :=
  emit EvFormData ;;; settle (formData request).

(** A [Record<string, string>] as the value handed to [safeParse]. *)
Definition string_record (o : Obj string) : Value :=
  VObj (map (fun kv => (fst kv, VStr (snd kv))) o).

(** Lines 40-54: authentication. *)
Definition authenticate (options : ApiHandlerOptions) (request : NextRequest)
    (st : Locals) : M Locals :=
  match auth options with
  | Some a =>
      authResult <- call_auth a request ;;
      if negb (success authResult) then
        response <- settle
          (NextResponse_json
             (VObj [("error", VStr (or_string (error authResult) "Unauthorized"))])
             (Some (or_number (auth_status authResult) 401%Z))) ;;
        return_ response
      else ret (set_user st (user authResult))
  | None => ret st
  end.

(** Lines 57-72: the JSON body. *)
Definition validateBody (options : ApiHandlerOptions) (request : NextRequest)
    (st : Locals) : M Locals :=
  match bodySchema options with
  | Some schema =>
      try_catch
        (rawBody <- (if includes ["GET"; "HEAD"] (method request)
                     then ret (VObj [])
                     else request_json request) ;;
         result <- call_safeParse SBody schema rawBody ;;
         match result with
         | SafeParseSuccess data => ret (set_body st data)
         | SafeParseError err => ret (set_error st "body" (format err))
         end)
        (fun _ => ret (set_error st "body" (VStr "Invalid JSON in request body")))
  | None => ret st
  end.

(** Lines 75-94: form data; a success is assigned to [body]. *)
Definition validateFormData (options : ApiHandlerOptions) (request : NextRequest)
    (st : Locals) : M Locals :=
  match formDataSchema options with
  | Some schema =>
      try_catch
        (entries <- request_formData request ;;
         let formDataObj := collect_entries entries in
         result <- call_safeParse SFormData schema (VObj formDataObj) ;;
         match result with
         | SafeParseSuccess data => ret (set_body st data)
         | SafeParseError err => ret (set_error st "formData" (format err))
         end)
        (fun _ => ret (set_error st "formData" (VStr "Invalid form data")))
  | None => ret st
  end.

(** Lines 97-110: query parameters. *)
Definition validateQuery (options : ApiHandlerOptions) (request : NextRequest)
    (st : Locals) : M Locals :=
  match querySchema options with
  | Some schema =>
      let queryParams := collect_entries (searchParams request) in
      result <- call_safeParse SQuery schema (string_record queryParams) ;;
      match result with
      | SafeParseSuccess data => ret (set_query st data)
      | SafeParseError err => ret (set_error st "query" (format err))
      end
  | None => ret st
  end.

(** Lines 113-121: path parameters, guarded by [context?.params]. *)
Definition validatePathParams (options : ApiHandlerOptions)
    (context : option Context) (st : Locals) : M Locals :=
  match pathParamsSchema options with
  | Some schema =>
      if truthy (context_params context) then
        result <- call_safeParse SPathParams schema (context_params context) ;;
        match result with
        | SafeParseSuccess data => ret (set_pathParams st data)
        | SafeParseError err => ret (set_error st "pathParams" (format err))
        end
      else ret st
  | None => ret st
  end.

(** Lines 124-137: headers. *)
Definition validateHeaders (options : ApiHandlerOptions) (request : NextRequest)
    (st : Locals) : M Locals :=
  match headerSchema options with
  | Some schema =>
      let headerObj := collect_entries (headers request) in
      result <- call_safeParse SHeaders schema (string_record headerObj) ;;
      match result with
      | SafeParseSuccess data => ret (set_headers st data)
      | SafeParseError err => ret (set_error st "headers" (format err))
      end
  | None => ret st
  end.

(** The five validation blocks in source order. *)
Definition validate (options : ApiHandlerOptions) (request : NextRequest)
    (context : option Context) (st : Locals) : M Locals :=
  st <- validateBody options request st ;;
  st <- validateFormData options request st ;;
  st <- validateQuery options request st ;;
  st <- validatePathParams options context st ;;
  validateHeaders options request st.

Definition handler_params (st : Locals) (request : NextRequest) : HandlerParams :=
  {| hp_body := l_body st; hp_query := l_query st;
     hp_pathParams := l_pathParams st; hp_headers := l_headers st;
     hp_user := l_user st; hp_request := request |}.

(** Lines 140-154: the 400 answer, or the call of the business handler. *)
Definition respond (options : ApiHandlerOptions) (request : NextRequest)
    (st : Locals) : M NextResponse :=
  if (0 <? length (obj_keys (errors st)))%nat then
    response <- settle
      (NextResponse_json (VObj [("errors", VObj (errors st))]) (Some 400%Z)) ;;
    return_ response
  else
    let p := handler_params st request in
    emit (EvHandler p) ;;;
    output <- settle (handler options p) ;;
    response <- settle (NextResponse_json output None) ;;
    return_ response.

(** The [try] block of [apiHandler], lines 31-154. *)
Definition apiHandler_try (options : ApiHandlerOptions) (request : NextRequest)
    (context : option Context) : M NextResponse :=
  st <- authenticate options request initLocals ;;
  st <- validate options request context st ;;
  respond options request st.

(** The answer of the [catch] block:
    [NextResponse.json({ error: 'Internal server error' }, { status: 500 })],
    which does not throw. *)
Definition internal_error_response : NextResponse :=
  match
    NextResponse_json (VObj [("error", VStr "Internal server error")]) (Some 500%Z)
  with
  | Done response => response
  | Raised _ => {| status := 500; body := VUndefined |}
  end.

(** [apiHandler]: the [try] block and its [catch], lines 155-161.  The
    result is the calls made and the response. *)
Definition apiHandler (options : ApiHandlerOptions) (request : NextRequest)
    (context : option Context) : list Event * NextResponse :=
  match apiHandler_try options request context with
  | (evs, Normal r) => (evs, r)
  | (evs, Returned r) => (evs, r)
  | (evs, Thrown e) =>
      (evs ++ [EvConsoleError e], internal_error_response)
  end.

Definition createApiHandler (options : ApiHandlerOptions)
  : NextRequest -> option Context -> list Event * NextResponse :=
  apiHandler options.

(* ================================================================== *)
(** ** Route registration and document generation *)
(* ================================================================== *)

(** [path.includes('{')] and friends: does the character occur in [s]? *)
Fixpoint includes_char (c : ascii) (s : string) : bool :=
  match s with
  | EmptyString => false
  | String c' rest => Ascii.eqb c' c || includes_char c rest
  end.

(** [path.replace(/\[([^\]]+)\]/g, '{$1}')].

    [replace_brackets] scans for the next '['.  [capture] then reads the
    group [[^\]]+] greedily: it takes every character up to the next ']'.
    The match succeeds when that ']' exists and the group is not empty, and
    the scan resumes after the ']'.  With an empty group the '[' is copied
    and the scan resumes at the ']'.  When no ']' follows, no later match
    is possible either and the rest of the input is copied. *)
Fixpoint replace_brackets (s : string) : string :=
  match s with
  | EmptyString => EmptyString
  | String c rest =>
      if Ascii.eqb c "["
      then capture rest EmptyString
      else String c (replace_brackets rest)
  end
with capture (s : string) (group : string) : string :=
  match s with
  | EmptyString => String "[" group
  | String c rest =>
      if Ascii.eqb c "]" then
        match group with
        | EmptyString => String "[" (String "]" (replace_brackets rest))
        | _ => String "{" (group ++ String "}" (replace_brackets rest))
        end
      else capture rest (group ++ String c EmptyString)
  end.

(** Lines 239-241. *)
Definition openApiPath (path : string) : string :=
  if includes_char "{" path then path else replace_brackets path.

(** A schema position of a route description: a schema of the endpoint, or
    one of the two schemas written inline in [registerOpenApiRoute]. *)
Inductive SchemaRef : Type :=
| SchemaOf (schema : ZodType)
| ErrorsRecordSchema      (* z.object({ errors: z.record(z.any()) }) *)
| ErrorStringSchema.      (* z.object({ error: z.string() }) *)

Record RouteResponse : Type := {
  rr_description : string;
  rr_content : Obj SchemaRef
}.

Record RouteRequest : Type := {
  rq_body : option (Obj SchemaRef);
  rq_query : option ZodType;
  rq_headers : option ZodType;
  rq_params : option ZodType
}.

(** The argument of [registry.registerPath]. *)
Record RouteConfig : Type := {
  route_method : string;
  route_path : string;
  route_summary : string;
  route_description : option string;
  route_tags : option (list string);
  route_operationId : option string;
  route_request : RouteRequest;
  route_responses : Obj RouteResponse;
  route_security : option (list (Obj (list string)))
}.

Inductive OpenAPIDefinition : Type :=
| RouteDefinition (route : RouteConfig).

(** Modelled from the spec: the [OpenAPIRegistry] class of the
    zod-to-openapi package, which is not part of the sources.  The spec
    describes the registry as an insertion-ordered, append-only collection
    without deduplication. *)
Record OpenAPIRegistry : Type := { definitions : list OpenAPIDefinition }.

Definition registerPath (registry : OpenAPIRegistry) (route : RouteConfig)
  : OpenAPIRegistry :=
  {| definitions := definitions registry ++ [RouteDefinition route] |}.

(** [schema && (schema instanceof z.ZodObject || schema instanceof z.ZodEffects)
     ? schema : undefined] *)
Definition object_schema (schema : option ZodType) : option ZodType :=
  match schema with
  | Some s =>
      match kind s with
      | ZodObject | ZodEffects => Some s
      | ZodOther => None
      end
  | None => None
  end.

Definition json_content (s : SchemaRef) : Obj SchemaRef := [("application/json", s)].

Definition route_response_of (r : ResponseConfig) : RouteResponse :=
  {| rr_description := resp_description r;
     rr_content := map (fun kv => (fst kv, SchemaOf (snd kv))) (resp_content r) |}.

(** Lines 288-332: the generated responses, then the spread of
    [metadata.responses].  The status codes are integer-like keys. *)
Definition route_responses_of (responseSchema : option ZodType)
    (metadata : OpenApiMetadata) : Obj RouteResponse :=
  own_properties
   (obj_spread
    (obj_spread
       match responseSchema with
       | Some s =>
           [("200", {| rr_description := "Successful response";
                       rr_content := json_content (SchemaOf s) |})]
       | None => []
       end
       [("400", {| rr_description := "Bad request";
                   rr_content := json_content ErrorsRecordSchema |});
        ("401", {| rr_description := "Unauthorized";
                   rr_content := json_content ErrorStringSchema |});
        ("500", {| rr_description := "Internal server error";
                   rr_content := json_content ErrorStringSchema |})])
    (map (fun kv => (fst kv, route_response_of (snd kv))) (responses metadata))).

(** [registerOpenApiRoute], lines 212-335. *)
Definition registerOpenApiRoute (method : HttpMethod) (path : string)
    (bodySchema querySchema pathParamsSchema headerSchema formDataSchema
       responseSchema : option ZodType)
    (auth : option AuthConfig) (metadata : OpenApiMetadata)
    (registry : OpenAPIRegistry) : OpenAPIRegistry :=
  registerPath registry
    {| route_method := HttpMethod_toLowerCase method;
       route_path := openApiPath path;
       route_summary := summary metadata;
       route_description := description metadata;
       route_tags := tags metadata;
       route_operationId := operationId metadata;
       route_request :=
         {| rq_body :=
              match bodySchema with
              | Some s => Some (json_content (SchemaOf s))
              | None =>
                  match formDataSchema with
                  | Some s => Some [("multipart/form-data", SchemaOf s)]
                  | None =>
                      option_map (map (fun kv => (fst kv, SchemaOf (snd kv))))
                                 (requestBody metadata)
                  end
              end;
            rq_query := object_schema querySchema;
            rq_headers := object_schema headerSchema;
            rq_params := object_schema pathParamsSchema |};
       route_responses := route_responses_of responseSchema metadata;
       route_security :=
         match auth with
         | Some a => Some [[(or_string (scheme a) "bearerAuth", [])]]
         | None => None
         end |}.

(** [options.openapi && options.openapi.includeInDocs !== false] *)
Definition documented (options : ApiHandlerOptions) : option OpenApiMetadata :=
  match openapi options with
  | Some metadata =>
      match includeInDocs metadata with
      | Some false => None
      | _ => Some metadata
      end
  | None => None
  end.

(** [createDocumentedApiHandler], lines 168-207: the registry after the
    call and the request handler it returns. *)
Definition createDocumentedApiHandler (method : HttpMethod) (path : string)
    (options : ApiHandlerOptions) (registry : OpenAPIRegistry)
  : OpenAPIRegistry
    * (NextRequest -> option Context -> list Event * NextResponse) :=
  (match documented options with
   | Some metadata =>
       registerOpenApiRoute method path
         (bodySchema options) (querySchema options) (pathParamsSchema options)
         (headerSchema options) (formDataSchema options)
         (responseSchema options) (auth options) metadata registry
   | None => registry
   end,
   createApiHandler options).

(** *** [src/openapi.ts] *)

Record Server : Type := { url : string; server_description : option string }.

(** [Partial<OpenApiConfig>] *)
Record OpenApiConfig : Type := {
  title : option string;
  version : option string;
  config_description : option string;
  servers : option (list Server);
  securitySchemes : option (Obj Value)
}.

Definition default_title : string := "API Documentation".
Definition default_version : string := "1.0.0".
Definition default_description : string :=
  "API documentation generated with next-typesafe-api".
Definition default_servers : list Server :=
  [{| url := "http://localhost:3000";
      server_description := Some "Local development server" |}].

Record Info : Type := {
  info_title : string;
  info_version : string;
  info_description : string
}.

Record OpenAPIDocument : Type := {
  doc_openapi : string;
  doc_info : Info;
  doc_servers : list Server;
  doc_paths : Obj (Obj RouteConfig)
}.

(** Modelled from the spec: path generation of [OpenApiGeneratorV3], which
    is not part of the sources.  The document lists every registered
    endpoint under its stored path and method. *)
Definition add_route (paths : Obj (Obj RouteConfig)) (d : OpenAPIDefinition)
  : Obj (Obj RouteConfig) :=
  match d with
  | RouteDefinition route =>
      let item := match obj_get paths (route_path route) with
                  | Some i => i
                  | None => []
                  end in
      obj_set paths (route_path route) (obj_set item (route_method route) route)
  end.

Definition generate_paths (defs : list OpenAPIDefinition) : Obj (Obj RouteConfig) :=
  fold_left add_route defs [].

Definition from_option {A} (o : option A) (d : A) : A :=
  match o with Some a => a | None => d end.

(** [generateOpenApiDocument], lines 59-75 of [src/openapi.ts].  The
    merged [securitySchemes] are not passed to the generator. *)
Definition generateOpenApiDocument (config : option OpenApiConfig)
    (registry : option OpenAPIRegistry) : OpenAPIDocument :=
  let pick {A} (f : OpenApiConfig -> option A) (d : A) : A :=
    match config with
    | Some c => from_option (f c) d
    | None => d
    end in
  {| doc_openapi := "3.0.0";
     doc_info := {| info_title := pick title default_title;
                    info_version := pick version default_version;
                    info_description := pick config_description default_description |};
     doc_servers := pick servers default_servers;
     doc_paths := generate_paths
                    match registry with
                    | Some r => definitions r
                    | None => []
                    end |}.

(** The operations the document lists under a method and a path. *)
Definition doc_entries (doc : OpenAPIDocument) (method : string)
    (path : string) : list RouteConfig :=
  match obj_get (doc_paths doc) path with
  | Some item =>
      match obj_get item method with
      | Some op => [op]
      | None => []
      end
  | None => []
  end.

(* ================================================================== *)
(** ** [src/auth-handlers.ts] *)
(* ================================================================== *)

Definition to_lower_char (c : ascii) : ascii :=
  if (65 <=? nat_of_ascii c)%nat && (nat_of_ascii c <=? 90)%nat
  then ascii_of_nat (nat_of_ascii c + 32)
  else c.

Fixpoint to_lower (s : string) : string :=
  match s with
  | EmptyString => EmptyString
  | String c rest => String (to_lower_char c) (to_lower rest)
  end.

(** The characters of an HTTP token. *)
Definition is_token_char (c : ascii) : bool :=
  let n := nat_of_ascii c in
  ((48 <=? n) && (n <=? 57) || (65 <=? n) && (n <=? 90)
   || (97 <=? n) && (n <=? 122))%nat
  || includes_char c "!#$%&'*+-.^_`|~".

Fixpoint all_token_chars (s : string) : bool :=
  match s with
  | EmptyString => true
  | String c rest => is_token_char c && all_token_chars rest
  end.

(** The names [Headers.get] accepts; it throws a [TypeError] for others. *)
Definition valid_header_name (name : string) : bool :=
  negb (String.eqb name "") && all_token_chars name.

Fixpoint find_header (entries : list (string * string)) (name : string)
  : option string :=
  match entries with
  | [] => None
  | (k, v) :: rest =>
      if String.eqb (to_lower k) name then Some v else find_header rest name
  end.

(** [request.headers.get(name)] for a name it accepts: the value of the
    header of that name, compared without regard to case, or [null].  The
    entries of [headers] are those the collection iterates, one per name.
    For a name it refuses the call throws: a caller whose name is not a
    constant tests [valid_header_name] before the read. *)
Definition headers_get (request : NextRequest) (name : string) : option string :=
  if valid_header_name name
  then find_header (headers request) (to_lower name)
  else None.

(** [!s] on the result of [headers.get]: [null] and [''] are falsy. *)
Definition missing (s : option string) : bool :=
  match s with
  | Some s' => String.eqb s' ""
  | None => true
  end.

(** [s.split(sep)] for a one-character separator. *)
Fixpoint split (sep : ascii) (s : string) : list string :=
  match s with
  | EmptyString => [EmptyString]
  | String c rest =>
      if Ascii.eqb c sep then EmptyString :: split sep rest
      else match split sep rest with
           | piece :: pieces => String c piece :: pieces
           | [] => [String c EmptyString]
           end
  end.

Record BearerAuthOptions : Type := {
  verifyToken : string -> Outcome Value;
  required : option bool;
  transformUser : option (Value -> Outcome Value)
}.

Definition auth_success (u : Value) : AuthResult :=
  {| success := true; user := u; error := None; auth_status := None |}.

Definition auth_failure (message : string) : AuthResult :=
  {| success := false; user := VUndefined; error := Some message;
     auth_status := Some 401%Z |}.

(** [bearerAuth], lines 31-69.  After the [startsWith] test the header
    has a second piece, so the default of [nth] is never used. *)
Definition bearerAuth (request : NextRequest) (options : BearerAuthOptions)
  : Outcome AuthResult :=
  let authHeader := headers_get request "authorization" in
  if match required options with Some false => true | _ => false end
     && missing authHeader
  then Done (auth_success VUndefined)
  else if missing authHeader
          || negb (String.prefix "Bearer " (from_option authHeader ""))
  then Done (auth_failure "Missing or invalid authorization header")
  else
    let token := nth 1 (split " " (from_option authHeader "")) "" in
    match verifyToken options token with
    | Done payload =>
        match transformUser options with
        | Some transform =>
            match transform payload with
            | Done u => Done (auth_success u)
            | Raised _ => Done (auth_failure "Invalid or expired token")
            end
        | None => Done (auth_success payload)
        end
    | Raised _ => Done (auth_failure "Invalid or expired token")
    end.

(** [keys: string[] | ((key: string) => Promise<boolean>)] *)
Inductive ApiKeys : Type :=
| KeyList (valid : list string)
| KeyFunction (check : string -> Outcome bool).

Record ApiKeyAuthOptions : Type := {
  keys : ApiKeys;
  headerName : option string;
  key_user : option Value
}.

(** [{ id: 'api', role: 'api', email: 'api@example.com' }] *)
Definition default_api_user : Value :=
  VObj [("id", VStr "api"); ("role", VStr "api"); ("email", VStr "api@example.com")].

(** [apiKeyAuth], lines 88-123. *)
Definition apiKeyAuth (request : NextRequest) (options : ApiKeyAuthOptions)
  : Outcome AuthResult :=
  let name := or_string (headerName options) "x-api-key" in
  if negb (valid_header_name name) then Raised TypeError else
  let apiKey := headers_get request name in
  if missing apiKey then
    Done (auth_failure ("Missing " ++ name ++ " header"))
  else
    let key := from_option apiKey "" in
    match
      match keys options with
      | KeyFunction check => check key
      | KeyList valid => Done (includes valid key)
      end
    with
    | Done isValid =>
        if negb isValid then Done (auth_failure "Invalid API key")
        else Done (auth_success
                     match key_user options with
                     | Some u => if truthy u then u else default_api_user
                     | None => default_api_user
                     end)
    | Raised e => Raised e
    end.

(** [createAuthHandler], lines 128-135. *)
Definition createAuthHandler {O : Type}
    (h : NextRequest -> O -> Outcome AuthResult)
  : NextRequest -> O -> Outcome AuthResult := h.

(** An [auth] option whose handler is [h] applied to the typed options
    [opts]; the options travel with the handler. *)
Definition auth_with {O : Type} (h : NextRequest -> O -> Outcome AuthResult)
    (opts : O) (name : option string) : AuthConfig :=
  {| auth_handler := fun request _ => h request opts;
     auth_options := VUndefined;
     scheme := name |}.

(* ================================================================== *)
(** ** Fixtures: the schemas and requests of [src/api-handler.test.ts] *)
(* ================================================================== *)

Module Fixtures.

(** The tree [error.format()] gives for one issue at a top-level field. *)
Definition field_issue (field message : string) : ZodError :=
  {| format := VObj [("_errors", VArr []);
                     (field, VObj [("_errors", VArr [VStr message])])] |}.

(** [z.object({ [field]: z.string().<check> })]; [check] gives the issue
    message for a string it refuses. *)
Definition object_with_string (field : string)
    (check : string -> option string) : ZodType :=
  {| kind := ZodObject;
     safeParse := fun raw =>
       match raw with
       | VObj fields =>
           match obj_get fields field with
           | Some (VStr s) =>
               match check s with
               | None => Done (SafeParseSuccess (VObj [(field, VStr s)]))
               | Some message => Done (SafeParseError (field_issue field message))
               end
           | Some _ => Done (SafeParseError (field_issue field "Expected string"))
           | None => Done (SafeParseError (field_issue field "Required"))
           end
       | _ => Done (SafeParseError
                      {| format := VObj [("_errors", VArr [VStr "Expected object"])] |})
       end |}.

(** [z.object({ foo: z.string() })] *)
Definition fooSchema : ZodType := object_with_string "foo" (fun _ => None).

(** [z.object({ q: z.string().min(2) })] *)
Definition qSchema : ZodType :=
  object_with_string "q"
    (fun s => if (String.length s <? 2)%nat
              then Some "String must contain at least 2 character(s)"
              else None).

(** [z.object({ 'x-custom-header': z.string().regex(/^foo/) })] *)
Definition customHeaderSchema : ZodType :=
  object_with_string "x-custom-header"
    (fun s => if String.prefix "foo" s then None else Some "Invalid").

(** A schema whose refinement throws. *)
Definition throwingSchema : ZodType :=
  {| kind := ZodEffects; safeParse := fun _ => Raised (VStr "refinement failed") |}.

(** [createMockRequest(method, body, query)] with headers added. *)
Definition createMockRequest (m : string) (b : option Value)
    (query : list (string * string)) (hdrs : list (string * string))
  : NextRequest :=
  {| method := m;
     json := Done (from_option b (VObj []));
     formData := Done [];
     searchParams := query;
     headers := hdrs |}.

Definition plainOptions (h : HandlerParams -> Outcome Value) : ApiHandlerOptions :=
  {| bodySchema := None; querySchema := None; pathParamsSchema := None;
     headerSchema := None; formDataSchema := None; auth := None;
     responseSchema := None; openapi := None; handler := h |}.

Definition with_body (s : ZodType) (o : ApiHandlerOptions) : ApiHandlerOptions :=
  {| bodySchema := Some s; querySchema := querySchema o;
     pathParamsSchema := pathParamsSchema o; headerSchema := headerSchema o;
     formDataSchema := formDataSchema o; auth := auth o;
     responseSchema := responseSchema o; openapi := openapi o;
     handler := handler o |}.
Definition with_query (s : ZodType) (o : ApiHandlerOptions) : ApiHandlerOptions :=
  {| bodySchema := bodySchema o; querySchema := Some s;
     pathParamsSchema := pathParamsSchema o; headerSchema := headerSchema o;
     formDataSchema := formDataSchema o; auth := auth o;
     responseSchema := responseSchema o; openapi := openapi o;
     handler := handler o |}.
Definition with_headers (s : ZodType) (o : ApiHandlerOptions) : ApiHandlerOptions :=
  {| bodySchema := bodySchema o; querySchema := querySchema o;
     pathParamsSchema := pathParamsSchema o; headerSchema := Some s;
     formDataSchema := formDataSchema o; auth := auth o;
     responseSchema := responseSchema o; openapi := openapi o;
     handler := handler o |}.
Definition with_formData (s : ZodType) (o : ApiHandlerOptions) : ApiHandlerOptions :=
  {| bodySchema := bodySchema o; querySchema := querySchema o;
     pathParamsSchema := pathParamsSchema o; headerSchema := headerSchema o;
     formDataSchema := Some s; auth := auth o;
     responseSchema := responseSchema o; openapi := openapi o;
     handler := handler o |}.
Definition with_pathParams (s : ZodType) (o : ApiHandlerOptions) : ApiHandlerOptions :=
  {| bodySchema := bodySchema o; querySchema := querySchema o;
     pathParamsSchema := Some s; headerSchema := headerSchema o;
     formDataSchema := formDataSchema o; auth := auth o;
     responseSchema := responseSchema o; openapi := openapi o;
     handler := handler o |}.
Definition with_auth (a : AuthConfig) (o : ApiHandlerOptions) : ApiHandlerOptions :=
  {| bodySchema := bodySchema o; querySchema := querySchema o;
     pathParamsSchema := pathParamsSchema o; headerSchema := headerSchema o;
     formDataSchema := formDataSchema o; auth := Some a;
     responseSchema := responseSchema o; openapi := openapi o;
     handler := handler o |}.
Definition with_openapi (m : OpenApiMetadata) (o : ApiHandlerOptions) : ApiHandlerOptions :=
  {| bodySchema := bodySchema o; querySchema := querySchema o;
     pathParamsSchema := pathParamsSchema o; headerSchema := headerSchema o;
     formDataSchema := formDataSchema o; auth := auth o;
     responseSchema := responseSchema o; openapi := Some m;
     handler := handler o |}.

(** [vi.fn().mockResolvedValue(v)] *)
Definition mockResolvedValue (v : Value) : HandlerParams -> Outcome Value :=
  fun _ => Done v.

(** An auth handler that answers with a fixed result. *)
Definition fixedAuth (r : AuthResult) : AuthConfig :=
  {| auth_handler := fun _ _ => Done r; auth_options := VUndefined; scheme := None |}.

Definition metadata (s : string) (docs : option bool) : OpenApiMetadata :=
  {| summary := s; description := None; tags := None; operationId := None;
     includeInDocs := docs; requestBody := None; responses := [] |}.

Definition authFailure (msg : option string) (code : option Z) : AuthResult :=
  {| success := false; user := VUndefined; error := msg; auth_status := code |}.

(** An endpoint behind an auth handler that refuses every request. *)
Definition forbiddenOptions : ApiHandlerOptions :=
  with_auth (fixedAuth (authFailure (Some "Forbidden") (Some 403%Z)))
    (plainOptions (mockResolvedValue (VObj [("ok", VBool true)]))).

(** An auth handler that fails with an empty message. *)
Definition emptyMessageOptions : ApiHandlerOptions :=
  with_auth (fixedAuth (authFailure (Some "") (Some 403%Z)))
    (plainOptions (mockResolvedValue (VObj [("ok", VBool true)]))).

(** 'returns 400 on invalid query or header' *)
Definition queryHeaderOptions : ApiHandlerOptions :=
  with_query qSchema
    (with_headers customHeaderSchema
       (plainOptions (mockResolvedValue (VObj [("ok", VBool true)])))).
Definition invalidQueryHeaderRequest : NextRequest :=
  createMockRequest "GET" None [("q", "a")] [("x-custom-header", "bar123")].
Definition validQueryHeaderRequest : NextRequest :=
  createMockRequest "GET" None [("q", "bar")] [("x-custom-header", "foo123")].

(** 'calls handler with validated data' *)
Definition fooOptions : ApiHandlerOptions :=
  with_body fooSchema (plainOptions (mockResolvedValue (VObj [("bar", VNum 1)]))).
Definition fooRequest : NextRequest :=
  createMockRequest "POST" (Some (VObj [("foo", VStr "bar")])) [] [].

Definition locals (b q h : Value) (errs : Obj Value) : Locals :=
  {| l_body := b; l_query := q; l_pathParams := VUndefined;
     l_headers := h; l_user := VUndefined; errors := errs |}.

End Fixtures.

(* ================================================================== *)
(** ** Vocabulary of the properties *)
(* ================================================================== *)

Definition is_handler_call (ev : Event) : bool :=
  match ev with EvHandler _ => true | _ => false end.

(** How many times the business handler was invoked. *)
Definition handler_calls (evs : list Event) : nat :=
  length (filter is_handler_call evs).

(** Reads of the request and schema calls: the work of the slot validators. *)
Definition is_validation (ev : Event) : bool :=
  match ev with
  | EvJson | EvFormData | EvSafeParse _ _ => true
  | _ => false
  end.

Definition slot_key (s : Slot) : string :=
  match s with
  | SBody => "body"
  | SFormData => "formData"
  | SQuery => "query"
  | SPathParams => "pathParams"
  | SHeaders => "headers"
  end.

(** The validation block of a slot. *)
Definition slot_phase (options : ApiHandlerOptions) (request : NextRequest)
    (context : option Context) (s : Slot) : Locals -> M Locals :=
  match s with
  | SBody => validateBody options request
  | SFormData => validateFormData options request
  | SQuery => validateQuery options request
  | SPathParams => validatePathParams options context
  | SHeaders => validateHeaders options request
  end.

(** The calls a slot makes, and the error it records, when its block runs
    on its own from the initial locals. *)
Definition slot_calls (options : ApiHandlerOptions) (request : NextRequest)
    (context : option Context) (s : Slot) : list Event :=
  fst (slot_phase options request context s initLocals).

Definition slot_error (options : ApiHandlerOptions) (request : NextRequest)
    (context : option Context) (s : Slot) : option Value :=
  match snd (slot_phase options request context s initLocals) with
  | Normal st => obj_get (errors st) (slot_key s)
  | _ => None
  end.

(** The local a slot assigns on success; form data shares [body]. *)
Definition slot_field (s : Slot) (st : Locals) : Value :=
  match s with
  | SBody | SFormData => l_body st
  | SQuery => l_query st
  | SPathParams => l_pathParams st
  | SHeaders => l_headers st
  end.

Definition same_field (s s' : Slot) : bool :=
  match s, s' with
  | (SBody | SFormData), (SBody | SFormData) => true
  | SQuery, SQuery | SPathParams, SPathParams | SHeaders, SHeaders => true
  | _, _ => false
  end.

(** The value a slot validates to when its block runs on its own;
    [undefined] when it has no schema or rejects its input. *)
Definition slot_value (options : ApiHandlerOptions) (request : NextRequest)
    (context : option Context) (s : Slot) : Value :=
  match snd (slot_phase options request context s initLocals) with
  | Normal st => slot_field s st
  | _ => VUndefined
  end.

(** The user the auth handler reports; [undefined] without auth. *)
Definition authenticated_user (options : ApiHandlerOptions)
    (request : NextRequest) : Value :=
  match auth options with
  | Some a =>
      match auth_handler a request (auth_options a) with
      | Done res => user res
      | Raised _ => VUndefined
      end
  | None => VUndefined
  end.

(** The request passed the authentication gate and every validation block
    ran to its end, leaving the locals [st]: [errors st] is the per-slot
    error mapping of the request. *)
Definition validated (options : ApiHandlerOptions) (request : NextRequest)
    (context : option Context) (st : Locals) : Prop :=
  exists ea st0 ev,
    authenticate options request initLocals = (ea, Normal st0) /\
    validate options request context st0 = (ev, Normal st).


(** The answer to a failed authentication when the two defaults apply to
    absent fields only. *)
Definition claimed_auth_failure_response (res : AuthResult) : NextResponse :=
  {| status := from_option (auth_status res) 401%Z;
     body := VObj [("error", VStr (from_option (error res) "Unauthorized"))] |}.

(** Lines 59-61: the value validated as the body. *)
Definition raw_body (request : NextRequest) : Outcome Value :=
  if includes ["GET"; "HEAD"] (method request) then Done (VObj []) else json request.

(** The raw values handed to the query and header schemas. *)
Definition query_raw (request : NextRequest) : Value :=
  string_record (collect_entries (searchParams request)).
Definition headers_raw (request : NextRequest) : Value :=
  string_record (collect_entries (headers request)).

(** What a validation block does to the locals. *)
Inductive Effect : Type :=
| EKeep
| EAssign (s : Slot) (d : Value)
| EError (s : Slot) (v : Value)
| EThrow (e : Exn).

Definition assign (s : Slot) (st : Locals) (d : Value) : Locals :=
  match s with
  | SBody | SFormData => set_body st d
  | SQuery => set_query st d
  | SPathParams => set_pathParams st d
  | SHeaders => set_headers st d
  end.

Definition run_effect (eff : Effect) (st : Locals) : Completion Locals :=
  match eff with
  | EKeep => Normal st
  | EAssign s d => Normal (assign s st d)
  | EError s v => Normal (set_error st (slot_key s) v)
  | EThrow e => Thrown e
  end.

Definition effect_of_slot (s : Slot) (eff : Effect) : Prop :=
  match eff with
  | EKeep | EThrow _ => True
  | EAssign s' _ | EError s' _ => s' = s
  end.

(** The registered paths, in registration order. *)
Definition stored_paths (registry : OpenAPIRegistry) : list string :=
  map (fun d => match d with RouteDefinition route => route_path route end)
      (definitions registry).

(** [options] with the path-parameter schema left out. *)
Definition without_pathParams (o : ApiHandlerOptions) : ApiHandlerOptions :=
  {| bodySchema := bodySchema o; querySchema := querySchema o;
     pathParamsSchema := None; headerSchema := headerSchema o;
     formDataSchema := formDataSchema o; auth := auth o;
     responseSchema := responseSchema o; openapi := openapi o;
     handler := handler o |}.

(** The slots in the order the source validates them. *)
Definition all_slots : list Slot :=
  [SBody; SFormData; SQuery; SPathParams; SHeaders].

(** The slot a call belongs to. *)
Definition event_slot (ev : Event) : option Slot :=
  match ev with
  | EvJson => Some SBody
  | EvFormData => Some SFormData
  | EvSafeParse s _ => Some s
  | _ => None
  end.

(** The runs of [apiHandler], by the [return] or [catch] they end in. *)
Inductive Dispatch (o : ApiHandlerOptions) (r : NextRequest)
    (ctx : option Context) : list Event * NextResponse -> Prop :=
| D_auth_failed ea resp :
    authenticate o r initLocals = (ea, Returned resp) ->
    Dispatch o r ctx (ea, resp)
| D_auth_threw ea e :
    authenticate o r initLocals = (ea, Thrown e) ->
    Dispatch o r ctx (ea ++ [EvConsoleError e], internal_error_response)
| D_validation_threw ea st0 ev e :
    authenticate o r initLocals = (ea, Normal st0) ->
    validate o r ctx st0 = (ev, Thrown e) ->
    Dispatch o r ctx (ea ++ ev ++ [EvConsoleError e], internal_error_response)
| D_rejected ea st0 ev st :
    authenticate o r initLocals = (ea, Normal st0) ->
    validate o r ctx st0 = (ev, Normal st) ->
    errors st <> [] ->
    Dispatch o r ctx
      (ea ++ ev,
       {| status := 400; body := VObj [("errors", VObj (errors st))] |})
| D_handled ea st0 ev st out :
    authenticate o r initLocals = (ea, Normal st0) ->
    validate o r ctx st0 = (ev, Normal st) ->
    errors st = [] ->
    handler o (handler_params st r) = Done out ->
    out <> VUndefined ->
    Dispatch o r ctx
      (ea ++ ev ++ [EvHandler (handler_params st r)],
       {| status := 200; body := out |})
| D_unserializable ea st0 ev st :
    authenticate o r initLocals = (ea, Normal st0) ->
    validate o r ctx st0 = (ev, Normal st) ->
    errors st = [] ->
    handler o (handler_params st r) = Done VUndefined ->
    Dispatch o r ctx
      (ea ++ ev ++ [EvHandler (handler_params st r); EvConsoleError TypeError],
       internal_error_response)
| D_handler_threw ea st0 ev st e :
    authenticate o r initLocals = (ea, Normal st0) ->
    validate o r ctx st0 = (ev, Normal st) ->
    errors st = [] ->
    handler o (handler_params st r) = Raised e ->
    Dispatch o r ctx
      (ea ++ ev ++ [EvHandler (handler_params st r); EvConsoleError e],
       internal_error_response).

(** The calls [apiHandler] can make for a request, each with the condition
    under which the source makes it. *)
Inductive pipeline_event (o : ApiHandlerOptions) (r : NextRequest)
    (ctx : option Context) : Event -> Prop :=
| pe_auth a :
    auth o = Some a -> pipeline_event o r ctx (EvAuth (auth_options a))
| pe_json schema :
    bodySchema o = Some schema ->
    includes ["GET"; "HEAD"] (method r) = false ->
    pipeline_event o r ctx EvJson
| pe_body_empty schema :
    bodySchema o = Some schema ->
    includes ["GET"; "HEAD"] (method r) = true ->
    pipeline_event o r ctx (EvSafeParse SBody (VObj []))
| pe_body schema raw :
    bodySchema o = Some schema ->
    includes ["GET"; "HEAD"] (method r) = false ->
    json r = Done raw ->
    pipeline_event o r ctx (EvSafeParse SBody raw)
| pe_formData_read schema :
    formDataSchema o = Some schema ->
    pipeline_event o r ctx EvFormData
| pe_formData schema entries :
    formDataSchema o = Some schema ->
    formData r = Done entries ->
    pipeline_event o r ctx (EvSafeParse SFormData (VObj (collect_entries entries)))
| pe_query schema :
    querySchema o = Some schema ->
    pipeline_event o r ctx (EvSafeParse SQuery (query_raw r))
| pe_pathParams schema :
    pathParamsSchema o = Some schema ->
    truthy (context_params ctx) = true ->
    pipeline_event o r ctx (EvSafeParse SPathParams (context_params ctx))
| pe_headers schema :
    headerSchema o = Some schema ->
    pipeline_event o r ctx (EvSafeParse SHeaders (headers_raw r))
| pe_handler st :
    validated o r ctx st -> errors st = [] ->
    pipeline_event o r ctx (EvHandler (handler_params st r))
| pe_console e :
    pipeline_event o r ctx (EvConsoleError e).

(** Calls of the auth handler. *)
Definition is_auth_call (ev : Event) : bool :=
  match ev with EvAuth _ => true | _ => false end.

(** What a schema must have answered for the business handler to get [v]
    from its slot: nothing was configured and [v] is [undefined], or the
    schema accepted [raw] and [v] is the data it returned. *)
Definition accepted (schema : option ZodType) (raw v : Value) : Prop :=
  match schema with
  | Some sch => safeParse sch raw = Done (SafeParseSuccess v)
  | None => v = VUndefined
  end.

(** A character of a path and the character normalization puts in its
    place: the same one, or a brace for a bracket. *)
Definition braced (c c' : ascii) : Prop :=
  c' = c \/ (c = "["%char /\ c' = "{"%char) \/ (c = "]"%char /\ c' = "}"%char).

Fixpoint pointwise (R : ascii -> ascii -> Prop) (s t : string) : Prop :=
  match s, t with
  | EmptyString, EmptyString => True
  | String a s', String b t' => R a b /\ pointwise R s' t'
  | _, _ => False
  end.

(** A path template: literal text and named parameters. *)
Inductive Segment : Type :=
| Literal (text : string)
| Param (name : string).

(** The template written with the given pair of delimiters. *)
Fixpoint render (opening closing : ascii) (template : list Segment) : string :=
  match template with
  | [] => EmptyString
  | Literal text :: rest => (text ++ render opening closing rest)%string
  | Param name :: rest =>
      String opening (name ++ String closing (render opening closing rest))%string
  end.

(** Literal text has no '[' and no '{'; a parameter name is not empty and
    has no ']' and no '{'. *)
Definition well_formed (seg : Segment) : Prop :=
  match seg with
  | Literal text =>
      includes_char "[" text = false /\ includes_char "{" text = false
  | Param name =>
      name <> EmptyString /\
      includes_char "]" name = false /\ includes_char "{" name = false
  end.

(* ================================================================== *)
(** ** Objects and the monad *)
(* ================================================================== *)

Section Objects.
Context {A : Type}.
Implicit Types (o : Obj A) (k : string) (v : A).

Lemma obj_get_set o k v k' :
  obj_get (obj_set o k v) k' =
    if String.eqb k k' then Some v else obj_get o k'.
Proof.
  induction o as [|[k0 v0] rest IH]; simpl.
  - reflexivity.
  - destruct (String.eqb_spec k0 k) as [->|Hne]; simpl.
    + destruct (String.eqb k k'); reflexivity.
    + rewrite IH. destruct (String.eqb_spec k0 k') as [->|Hne'].
      * destruct (String.eqb_spec k k'); [congruence | reflexivity].
      * reflexivity.
Qed.

Lemma obj_set_not_nil o k v : obj_set o k v <> [].
Proof.
  destruct o as [|[k0 v0] rest]; simpl; [discriminate|].
  destruct (String.eqb k0 k); discriminate.
Qed.

Lemma obj_get_has_key o k v : obj_get o k = Some v -> has_key o k.
Proof.
  unfold has_key, obj_keys.
  induction o as [|[k0 v0] rest IH]; simpl; [discriminate|].
  destruct (String.eqb_spec k0 k) as [->|Hne]; auto.
Qed.
End Objects.

Section Monad.
Context {A B : Type}.

Lemma bind_Normal (m : M A) (f : A -> M B) evs b :
  bind m f = (evs, Normal b) ->
  exists e1 a e2,
    m = (e1, Normal a) /\ f a = (e2, Normal b) /\ evs = e1 ++ e2.
Proof.
  destruct m as [e1 [a|r|e]]; simpl; try discriminate.
  destruct (f a) as [e2 c] eqn:Hf. intros H; inversion H; subst.
  exists e1, a, e2. auto.
Qed.

Lemma bind_run (m : M A) (f : A -> M B) e1 a :
  m = (e1, Normal a) -> bind m f = (e1 ++ fst (f a), snd (f a)).
Proof. intros ->. simpl. destruct (f a); reflexivity. Qed.

Lemma bind_events (P : Event -> Prop) (m : M A) (f : A -> M B) :
  Forall P (fst m) -> (forall a, Forall P (fst (f a))) ->
  Forall P (fst (bind m f)).
Proof.
  destruct m as [e1 [a|r|e]]; simpl; auto.
  intros H1 H2. specialize (H2 a). destruct (f a) as [e2 c]; simpl in *.
  apply Forall_app; auto.
Qed.
End Monad.

(* ================================================================== *)
(** ** The validation blocks *)
(* ================================================================== *)

(** Terms a block branches on. *)
Ltac scrutinee x :=
  first
    [ is_var x
    | lazymatch x with
      | safeParse _ _ => idtac
      | json _ => idtac
      | formData _ => idtac
      | includes _ _ => idtac
      | truthy _ => idtac
      | bodySchema _ => idtac
      | formDataSchema _ => idtac
      | querySchema _ => idtac
      | pathParamsSchema _ => idtac
      | headerSchema _ => idtac
      | auth _ => idtac
      | auth_handler _ _ _ => idtac
      | success _ => idtac
      | negb _ => idtac
      | handler _ _ => idtac
      | errors _ => idtac
      | NextResponse_json _ _ => idtac
      end ].

Ltac unfold_block :=
  unfold slot_phase, validateBody, validateFormData, validateQuery,
    validatePathParams, validateHeaders, authenticate, respond,
    call_auth, call_safeParse, request_json, request_formData,
    try_catch, bind, settle, emit, ret, return_.

(** Runs a block symbolically, splitting on every branch it takes. *)
Ltac run_block :=
  repeat (cbn -[includes collect_entries string_record NextResponse_json];
          match goal with
          | |- context [match ?x with _ => _ end] =>
              scrutinee x; destruct x eqn:?
          end).

Ltac fold_effect s :=
  intro;
  lazymatch goal with
  | |- (_, Normal (set_error ?st _ ?v)) = (_, run_effect ?eff ?st) =>
      unify eff (EError s v)
  | |- (_, Normal ?st) = (_, run_effect ?eff ?st) =>
      unify eff EKeep
  | |- (_, Thrown ?e) = (_, run_effect ?eff ?st) =>
      unify eff (EThrow e)
  | |- (_, Normal (_ ?st ?d)) = (_, run_effect ?eff ?st) =>
      unify eff (EAssign s d)
  end;
  reflexivity.

Ltac uniform_block s :=
  unfold_block; run_block;
  (do 2 eexists; split; [ | fold_effect s ]); simpl; trivial.

(** A validation block makes the same calls and has the same effect
    whatever the locals it starts from: it never reads [errors]. *)
Lemma slot_phase_uniform o r ctx s :
  exists evs eff,
    effect_of_slot s eff /\
    forall st, slot_phase o r ctx s st = (evs, run_effect eff st).
Proof.
  destruct s.
  - uniform_block SBody.
  - uniform_block SFormData.
  - uniform_block SQuery.
  - uniform_block SPathParams.
  - uniform_block SHeaders.
Qed.

Lemma slot_key_inj s s' : slot_key s = slot_key s' -> s = s'.
Proof. destruct s, s'; simpl; intros H; try reflexivity; discriminate. Qed.

Lemma run_effect_locals s eff st st' :
  effect_of_slot s eff -> run_effect eff st = Normal st' ->
  l_user st' = l_user st /\
  (forall s', s' <> s ->
     obj_get (errors st') (slot_key s') = obj_get (errors st) (slot_key s')) /\
  obj_get (errors st') (slot_key s) =
    match eff with
    | EError _ v => Some v
    | _ => obj_get (errors st) (slot_key s)
    end /\
  (forall s', same_field s s' = false -> slot_field s' st' = slot_field s' st) /\
  slot_field s st' =
    match eff with
    | EAssign _ d => d
    | _ => slot_field s st
    end.
Proof.
  intros Hs Hrun.
  destruct eff as [|s0 d|s0 v|e]; simpl in *; try discriminate;
    inversion Hrun; subst; clear Hrun.
  - auto.
  - repeat split; intros; try (destruct s; reflexivity).
    destruct s, s'; simpl in *; reflexivity || discriminate.
  - repeat split; intros; simpl;
      try (destruct s; reflexivity); try (destruct s'; reflexivity).
    + rewrite obj_get_set.
      destruct (String.eqb_spec (slot_key s) (slot_key s')) as [E|E]; auto.
      apply slot_key_inj in E. congruence.
    + rewrite obj_get_set, String.eqb_refl. reflexivity.
Qed.

(** What one block leaves behind, in terms of the block run on its own. *)
Lemma slot_phase_Normal o r ctx s st evs st' :
  slot_phase o r ctx s st = (evs, Normal st') ->
  evs = slot_calls o r ctx s /\
  l_user st' = l_user st /\
  (forall s', s' <> s ->
     obj_get (errors st') (slot_key s') = obj_get (errors st) (slot_key s')) /\
  (obj_get (errors st) (slot_key s) = None ->
     obj_get (errors st') (slot_key s) = slot_error o r ctx s) /\
  (forall s', same_field s s' = false -> slot_field s' st' = slot_field s' st) /\
  (slot_field s st = VUndefined -> slot_field s st' = slot_value o r ctx s).
Proof.
  destruct (slot_phase_uniform o r ctx s) as (evs0 & eff & Hs & Hu).
  unfold slot_calls, slot_error, slot_value. rewrite !Hu. simpl.
  intros H; inversion H; subst; clear H.
  destruct (run_effect_locals s eff st st' Hs) as (Hu1 & Ho & Hk & Hf & Hv); auto.
  repeat split; auto.
  - intros Hnone. rewrite Hk.
    destruct eff as [|s0 d|s0 v|e]; simpl in *; try discriminate; auto.
    + destruct s0; simpl; auto.
    + subst s0. rewrite String.eqb_refl. reflexivity.
  - intros Hund. rewrite Hv.
    destruct eff as [|s0 d|s0 v|e]; simpl in *; try discriminate; auto.
    + destruct s; assumption.
    + subst s0. destruct s; reflexivity.
    + destruct s; assumption.
Qed.

Lemma slot_calls_fst o r ctx s st :
  fst (slot_phase o r ctx s st) = slot_calls o r ctx s.
Proof.
  destruct (slot_phase_uniform o r ctx s) as (evs & eff & _ & Hu).
  unfold slot_calls. rewrite !Hu. reflexivity.
Qed.

Lemma slot_phase_not_Returned o r ctx s st resp :
  snd (slot_phase o r ctx s st) <> Returned resp.
Proof.
  destruct (slot_phase_uniform o r ctx s) as (evs & eff & _ & Hu).
  rewrite Hu. destruct eff; simpl; discriminate.
Qed.

Lemma slot_calls_pipeline o r ctx s :
  Forall (pipeline_event o r ctx) (slot_calls o r ctx s).
Proof.
  unfold slot_calls.
  destruct s; unfold_block; run_block;
    repeat (apply Forall_cons || apply Forall_nil);
    solve [ econstructor; eauto ].
Qed.

(** *** The five blocks in sequence *)

Lemma slot_phase_Forall (P : Event -> Prop) o r ctx s st :
  Forall P (slot_calls o r ctx s) -> Forall P (fst (slot_phase o r ctx s st)).
Proof. rewrite slot_calls_fst. trivial. Qed.

Lemma validate_Forall (P : Event -> Prop) o r ctx st :
  (forall s, Forall P (slot_calls o r ctx s)) ->
  Forall P (fst (validate o r ctx st)).
Proof.
  intros HP. unfold validate.
  repeat (apply bind_events; [ | intro ]).
  - apply (slot_phase_Forall P o r ctx SBody), HP.
  - apply (slot_phase_Forall P o r ctx SFormData), HP.
  - apply (slot_phase_Forall P o r ctx SQuery), HP.
  - apply (slot_phase_Forall P o r ctx SPathParams), HP.
  - apply (slot_phase_Forall P o r ctx SHeaders), HP.
Qed.

Lemma bind_not_Returned {A B} (m : M A) (f : A -> M B) resp :
  snd m <> Returned resp -> (forall a, snd (f a) <> Returned resp) ->
  snd (bind m f) <> Returned resp.
Proof.
  destruct m as [e1 [a|r0|e]]; simpl; intros Hm Hf.
  - specialize (Hf a). destruct (f a); simpl in *; assumption.
  - congruence.
  - discriminate.
Qed.

Lemma validate_not_Returned o r ctx st resp :
  snd (validate o r ctx st) <> Returned resp.
Proof.
  unfold validate.
  repeat (apply bind_not_Returned; [ | intro ]).
  - apply (slot_phase_not_Returned o r ctx SBody).
  - apply (slot_phase_not_Returned o r ctx SFormData).
  - apply (slot_phase_not_Returned o r ctx SQuery).
  - apply (slot_phase_not_Returned o r ctx SPathParams).
  - apply (slot_phase_not_Returned o r ctx SHeaders).
Qed.

(** A completed validation, block by block. *)
Lemma validate_Normal o r ctx st0 ev st :
  validate o r ctx st0 = (ev, Normal st) ->
  exists st1 st2 st3 st4 e1 e2 e3 e4 e5,
    slot_phase o r ctx SBody st0 = (e1, Normal st1) /\
    slot_phase o r ctx SFormData st1 = (e2, Normal st2) /\
    slot_phase o r ctx SQuery st2 = (e3, Normal st3) /\
    slot_phase o r ctx SPathParams st3 = (e4, Normal st4) /\
    slot_phase o r ctx SHeaders st4 = (e5, Normal st) /\
    ev = e1 ++ e2 ++ e3 ++ e4 ++ e5.
Proof.
  unfold validate. intros H.
  apply bind_Normal in H. destruct H as (e1 & st1 & x1 & H1 & H & ->).
  apply bind_Normal in H. destruct H as (e2 & st2 & x2 & H2 & H & ->).
  apply bind_Normal in H. destruct H as (e3 & st3 & x3 & H3 & H & ->).
  apply bind_Normal in H. destruct H as (e4 & st4 & e5 & H4 & H5 & ->).
  exists st1, st2, st3, st4, e1, e2, e3, e4, e5. repeat split; assumption.
Qed.

(** A completed validation made the calls of every slot, in source order,
    and kept for every slot the error its block records on its own. *)
Lemma validate_complete o r ctx st0 ev st :
  validate o r ctx st0 = (ev, Normal st) ->
  ev = concat (map (slot_calls o r ctx) all_slots) /\
  l_user st = l_user st0 /\
  (errors st0 = [] ->
   forall s, obj_get (errors st) (slot_key s) = slot_error o r ctx s) /\
  (l_query st0 = VUndefined -> l_query st = slot_value o r ctx SQuery) /\
  (l_pathParams st0 = VUndefined ->
   l_pathParams st = slot_value o r ctx SPathParams) /\
  (l_headers st0 = VUndefined -> l_headers st = slot_value o r ctx SHeaders).
Proof.
  intros H. apply validate_Normal in H.
  destruct H as (st1 & st2 & st3 & st4 & e1 & e2 & e3 & e4 & e5
                 & H1 & H2 & H3 & H4 & H5 & ->).
  apply slot_phase_Normal in H1. destruct H1 as (-> & U1 & O1 & K1 & F1 & _).
  apply slot_phase_Normal in H2. destruct H2 as (-> & U2 & O2 & K2 & F2 & _).
  apply slot_phase_Normal in H3. destruct H3 as (-> & U3 & O3 & K3 & F3 & V3).
  apply slot_phase_Normal in H4. destruct H4 as (-> & U4 & O4 & K4 & F4 & V4).
  apply slot_phase_Normal in H5. destruct H5 as (-> & U5 & O5 & K5 & F5 & V5).
  split; [ simpl; rewrite app_nil_r; reflexivity | ].
  split; [ congruence | ].
  split; [ | repeat split ].
  - intros Hnil s.
    assert (N0 : forall s', obj_get (errors st0) (slot_key s') = None)
      by (intro; rewrite Hnil; reflexivity).
    destruct s.
    + rewrite O5, O4, O3, O2 by discriminate. apply K1, N0.
    + rewrite O5, O4, O3 by discriminate. apply K2.
      rewrite O1 by discriminate. apply N0.
    + rewrite O5, O4 by discriminate. apply K3.
      rewrite O2, O1 by discriminate. apply N0.
    + rewrite O5 by discriminate. apply K4.
      rewrite O3, O2, O1 by discriminate. apply N0.
    + apply K5. rewrite O4, O3, O2, O1 by discriminate. apply N0.
  - intros Hund. change (slot_field SQuery st = slot_value o r ctx SQuery).
    rewrite (F5 SQuery eq_refl), (F4 SQuery eq_refl). apply V3.
    rewrite (F2 SQuery eq_refl), (F1 SQuery eq_refl). exact Hund.
  - intros Hund.
    change (slot_field SPathParams st = slot_value o r ctx SPathParams).
    rewrite (F5 SPathParams eq_refl). apply V4.
    rewrite (F3 SPathParams eq_refl), (F2 SPathParams eq_refl),
      (F1 SPathParams eq_refl). exact Hund.
  - intros Hund. apply V5.
    rewrite (F4 SHeaders eq_refl), (F3 SHeaders eq_refl),
      (F2 SHeaders eq_refl), (F1 SHeaders eq_refl). exact Hund.
Qed.

(** *** Building the answer *)

Lemma NextResponse_json_default out :
  out <> VUndefined ->
  NextResponse_json out None = Done {| status := 200; body := out |}.
Proof. destruct out; intros H; try reflexivity. congruence. Qed.

Lemma NextResponse_json_undefined init :
  NextResponse_json VUndefined init = Raised TypeError.
Proof. reflexivity. Qed.

Lemma NextResponse_json_object fields s :
  valid_status (to_unsigned_short s) = true ->
  NextResponse_json (VObj fields) (Some s) =
    Done {| status := to_unsigned_short s; body := VObj fields |}.
Proof.
  unfold valid_status, NextResponse_json. intros H.
  apply andb_true_iff in H. destruct H as [Hr Hn].
  rewrite Hr. apply negb_true_iff in Hn. rewrite Hn. reflexivity.
Qed.

Lemma NextResponse_json_refused fields s :
  valid_status (to_unsigned_short s) = false ->
  NextResponse_json (VObj fields) (Some s) =
    Raised (if (200 <=? to_unsigned_short s)%Z && (to_unsigned_short s <=? 599)%Z
            then TypeError else RangeError).
Proof.
  unfold valid_status, NextResponse_json. intros H.
  destruct ((200 <=? to_unsigned_short s)%Z && (to_unsigned_short s <=? 599)%Z);
    [ | reflexivity ].
  simpl in H. apply negb_false_iff in H. rewrite H. reflexivity.
Qed.

(** A status in the accepted range is kept as it is. *)
Lemma to_unsigned_short_valid s :
  valid_status s = true -> to_unsigned_short s = s.
Proof.
  unfold valid_status, to_unsigned_short. intros H.
  apply andb_true_iff in H. destruct H as [H _].
  apply andb_true_iff in H. destruct H as [H1 H2].
  apply Z.leb_le in H1, H2. apply Z.rem_small. lia.
Qed.

Lemma NextResponse_json_Done b init response :
  NextResponse_json b init = Done response ->
  response =
    {| status := match init with Some s => to_unsigned_short s | None => 200%Z end;
       body := b |}
  /\ b <> VUndefined
  /\ valid_status
       (match init with Some s => to_unsigned_short s | None => 200%Z end) = true.
Proof.
  unfold NextResponse_json, valid_status.
  destruct ((200 <=? _)%Z && (_ <=? 599)%Z), (null_body_status _);
    destruct b; intros H; inversion H; repeat split; discriminate.
Qed.

Lemma internal_error_response_eq :
  internal_error_response =
    {| status := 500; body := VObj [("error", VStr "Internal server error")] |}.
Proof. reflexivity. Qed.

(** *** Authentication *)

Lemma authenticate_events o r ctx st :
  Forall (pipeline_event o r ctx) (fst (authenticate o r st)).
Proof.
  unfold_block; run_block;
    repeat (apply Forall_cons || apply Forall_nil);
    solve [ econstructor; eauto ].
Qed.

Lemma authenticate_Normal o r st ea st0 :
  authenticate o r st = (ea, Normal st0) ->
  st0 = set_user st (l_user st0).
Proof.
  unfold_block; run_block; intros H; inversion H; subst;
    try reflexivity.
  destruct st0; reflexivity.
Qed.

Lemma authenticate_user o r ea st0 :
  authenticate o r initLocals = (ea, Normal st0) ->
  l_user st0 = authenticated_user o r.
Proof.
  unfold authenticated_user.
  unfold_block; run_block; intros H; inversion H; subst; reflexivity.
Qed.

Lemma authenticate_Returned o r st ea resp :
  authenticate o r st = (ea, Returned resp) ->
  exists a res,
    auth o = Some a /\
    auth_handler a r (auth_options a) = Done res /\
    success res = false /\
    ea = [EvAuth (auth_options a)] /\
    NextResponse_json
      (VObj [("error", VStr (or_string (error res) "Unauthorized"))])
      (Some (or_number (auth_status res) 401%Z)) = Done resp.
Proof.
  unfold_block; run_block; intros H; inversion H; subst.
  do 2 eexists. repeat split; eauto.
  apply negb_true_iff. assumption.
Qed.

(** *** The shape of every run *)

Lemma apiHandler_Dispatch o r ctx : Dispatch o r ctx (apiHandler o r ctx).
Proof.
  unfold apiHandler, apiHandler_try.
  destruct (authenticate o r initLocals) as [ea [st0|resp|e]] eqn:Ha; simpl.
  - destruct (validate o r ctx st0) as [ev [st|resp|e]] eqn:Hv; simpl.
    + unfold respond.
      destruct (errors st) as [|kv rest] eqn:He; simpl.
      * destruct (handler o (handler_params st r)) as [out|e] eqn:Hh; simpl.
        -- destruct out; cbn;
             try (eapply D_handled; eauto; discriminate).
           rewrite <- !app_assoc. simpl. eapply D_unserializable; eauto.
        -- rewrite <- !app_assoc. simpl. eapply D_handler_threw; eauto.
      * rewrite app_nil_r. rewrite <- He. eapply D_rejected; eauto. congruence.
    + exfalso. apply (validate_not_Returned o r ctx st0 resp). rewrite Hv. reflexivity.
    + rewrite <- app_assoc. eapply D_validation_threw; eauto.
  - eapply D_auth_failed; eauto.
  - eapply D_auth_threw; eauto.
Qed.

(** *** Counting handler calls *)

Lemma handler_calls_app l1 l2 :
  handler_calls (l1 ++ l2) = handler_calls l1 + handler_calls l2.
Proof. unfold handler_calls. rewrite filter_app, length_app. reflexivity. Qed.

Lemma handler_calls_none l :
  Forall (fun ev => is_handler_call ev = false) l -> handler_calls l = 0.
Proof.
  unfold handler_calls. induction 1 as [|ev l Hev _ IH]; simpl.
  - reflexivity.
  - rewrite Hev. exact IH.
Qed.

Lemma slot_calls_slot o r ctx s :
  Forall (fun ev => event_slot ev = Some s) (slot_calls o r ctx s).
Proof.
  unfold slot_calls.
  destruct s; unfold_block; run_block;
    repeat (apply Forall_cons || apply Forall_nil); reflexivity.
Qed.

Lemma authenticate_auth_only o r st :
  Forall (fun ev => exists v, ev = EvAuth v) (fst (authenticate o r st)).
Proof.
  unfold_block; run_block;
    repeat (apply Forall_cons || apply Forall_nil);
    eexists; reflexivity.
Qed.

Lemma authenticate_quiet o r st ea c :
  authenticate o r st = (ea, c) ->
  Forall (fun ev => is_handler_call ev = false /\ is_validation ev = false) ea.
Proof.
  intros H. pose proof (authenticate_auth_only o r st) as Ha.
  rewrite H in Ha. simpl in Ha.
  eapply Forall_impl; [ | exact Ha ].
  intros ev [v ->]. split; reflexivity.
Qed.

Lemma validate_quiet o r ctx st ev c :
  validate o r ctx st = (ev, c) ->
  Forall (fun e => is_handler_call e = false) ev.
Proof.
  intros H.
  pose proof (validate_Forall (fun e => is_handler_call e = false) o r ctx st) as Hv.
  rewrite H in Hv. apply Hv. intros s.
  eapply Forall_impl; [ | apply slot_calls_slot ].
  intros [] Hs; simpl in *; reflexivity || discriminate.
Qed.

(** *** Runs that reach the end of validation *)

Lemma validated_run o r ctx ea st0 ev st :
  authenticate o r initLocals = (ea, Normal st0) ->
  validate o r ctx st0 = (ev, Normal st) ->
  apiHandler o r ctx =
    match errors st with
    | [] =>
        match handler o (handler_params st r) with
        | Done out =>
            match NextResponse_json out None with
            | Done response =>
                (ea ++ ev ++ [EvHandler (handler_params st r)], response)
            | Raised e =>
                (ea ++ ev ++ [EvHandler (handler_params st r); EvConsoleError e],
                 internal_error_response)
            end
        | Raised e =>
            (ea ++ ev ++ [EvHandler (handler_params st r); EvConsoleError e],
             internal_error_response)
        end
    | _ :: _ =>
        (ea ++ ev,
         {| status := 400; body := VObj [("errors", VObj (errors st))] |})
    end.
Proof.
  intros Ha Hv. unfold apiHandler, apiHandler_try.
  rewrite Ha. simpl. rewrite Hv. simpl. unfold respond.
  destruct (errors st) as [|kv rest]; simpl.
  - destruct (handler o (handler_params st r)) as [out|e]; cbn.
    + destruct out; cbn; rewrite <- ?app_assoc; reflexivity.
    + rewrite <- !app_assoc. reflexivity.
  - rewrite app_nil_r. reflexivity.
Qed.

Lemma authenticate_no_handler o r st ea c :
  authenticate o r st = (ea, c) -> handler_calls ea = 0.
Proof.
  intros H. apply handler_calls_none.
  eapply Forall_impl; [ | eapply authenticate_quiet; eauto ].
  intros ev [Hh _]. exact Hh.
Qed.

Lemma validate_no_handler o r ctx st ev c :
  validate o r ctx st = (ev, c) -> handler_calls ev = 0.
Proof. intros H. apply handler_calls_none. eapply validate_quiet; eauto. Qed.

Lemma validated_quiet o r ctx ea st0 ev st :
  authenticate o r initLocals = (ea, Normal st0) ->
  validate o r ctx st0 = (ev, Normal st) ->
  handler_calls (ea ++ ev) = 0.
Proof.
  intros Ha Hv. rewrite handler_calls_app.
  rewrite (authenticate_no_handler _ _ _ _ _ Ha).
  rewrite (validate_no_handler _ _ _ _ _ _ Hv). reflexivity.
Qed.

(** The locals a completed validation leaves: nothing but what the slots
    and the auth handler produced. *)
Lemma validated_locals o r ctx st :
  validated o r ctx st ->
  l_user st = authenticated_user o r /\
  l_query st = slot_value o r ctx SQuery /\
  l_pathParams st = slot_value o r ctx SPathParams /\
  l_headers st = slot_value o r ctx SHeaders /\
  forall s, obj_get (errors st) (slot_key s) = slot_error o r ctx s.
Proof.
  intros (ea & st0 & ev & Ha & Hv).
  pose proof (authenticate_user _ _ _ _ Ha) as Hu.
  apply authenticate_Normal in Ha.
  apply validate_complete in Hv.
  destruct Hv as (_ & U & E & Q & P & H).
  rewrite Ha in E, Q, P, H. simpl in *.
  repeat split; auto. congruence.
Qed.

(** Case analysis on a run of [apiHandler]. *)
Lemma apiHandler_cases o r ctx (P : list Event * NextResponse -> Prop) :
  (forall run, Dispatch o r ctx run -> P run) -> P (apiHandler o r ctx).
Proof. intros H. apply H, apiHandler_Dispatch. Qed.


(* ================================================================== *)
(** ** Authentication short-circuit *)
(* ================================================================== *)

Lemma auth_failure_run o r ctx a res :
  auth o = Some a ->
  auth_handler a r (auth_options a) = Done res ->
  success res = false ->
  apiHandler o r ctx =
    match
      NextResponse_json
        (VObj [("error", VStr (or_string (error res) "Unauthorized"))])
        (Some (or_number (auth_status res) 401%Z))
    with
    | Done response => ([EvAuth (auth_options a)], response)
    | Raised e =>
        ([EvAuth (auth_options a); EvConsoleError e], internal_error_response)
    end.
Proof.
  intros Ha Hres Hfail.
  unfold apiHandler, apiHandler_try, authenticate, call_auth.
  rewrite Ha. cbn -[NextResponse_json]. rewrite Hres. cbn -[NextResponse_json].
  rewrite Hfail. cbn -[NextResponse_json].
  destruct (NextResponse_json _ _); reflexivity.
Qed.

Lemma or_string_cases (s : option string) d :
  or_string s d = match s with Some "" | None => d | Some msg => msg end.
Proof. unfold or_string. destruct s as [[|c msg]|]; reflexivity. Qed.

Lemma or_number_cases (n : option Z) d :
  or_number n d = match n with Some 0%Z | None => d | Some code => code end.
Proof. unfold or_number. destruct n as [[|p|p]|]; reflexivity. Qed.

(** C2 (as amended).  When auth is configured and the auth handler's
    outcome signals failure, the auth handler is the only call made: no
    request read, no schema and no business handler runs.  The message of
    the answer is the outcome's error message, or "Unauthorized" when the
    message is absent or empty; its code is the outcome's status code, or
    401 when the code is absent or zero.  When the code, read as an
    unsigned short, is one a response with a body accepts (200 to 599,
    without 204, 205 and 304), the answer carries the message with that
    code; a code in that range is carried as it is.  For any other code
    building the answer throws: the error is logged and the answer is the
    fixed 500 response. *)
Theorem C2_auth_failure_short_circuit o r ctx a res :
  auth o = Some a ->
  auth_handler a r (auth_options a) = Done res ->
  success res = false ->
  let message :=
    match error res with Some "" | None => "Unauthorized" | Some msg => msg end in
  let code :=
    match auth_status res with Some 0%Z | None => 401%Z | Some code => code end in
  (forall ev, In ev (fst (apiHandler o r ctx)) ->
              is_validation ev = false /\ is_handler_call ev = false) /\
  (valid_status (to_unsigned_short code) = true ->
   apiHandler o r ctx =
     ([EvAuth (auth_options a)],
      {| status := to_unsigned_short code;
         body := VObj [("error", VStr message)] |})) /\
  (valid_status code = true ->
   apiHandler o r ctx =
     ([EvAuth (auth_options a)],
      {| status := code; body := VObj [("error", VStr message)] |})) /\
  (valid_status (to_unsigned_short code) = false ->
   apiHandler o r ctx =
     ([EvAuth (auth_options a);
       EvConsoleError
         (if (200 <=? to_unsigned_short code)%Z && (to_unsigned_short code <=? 599)%Z
          then TypeError else RangeError)],
      internal_error_response)).
Proof.
  intros Ha Hres Hfail message code.
  pose proof (auth_failure_run o r ctx a res Ha Hres Hfail) as Hrun.
  rewrite or_string_cases, or_number_cases in Hrun.
  fold message code in Hrun.
  assert (Hvalid : valid_status (to_unsigned_short code) = true ->
            apiHandler o r ctx =
              ([EvAuth (auth_options a)],
               {| status := to_unsigned_short code;
                  body := VObj [("error", VStr message)] |})).
  { intros Hv. rewrite Hrun, (NextResponse_json_object _ _ Hv). reflexivity. }
  assert (Hrefused : valid_status (to_unsigned_short code) = false ->
            apiHandler o r ctx =
              ([EvAuth (auth_options a);
                EvConsoleError
                  (if (200 <=? to_unsigned_short code)%Z
                      && (to_unsigned_short code <=? 599)%Z
                   then TypeError else RangeError)],
               internal_error_response)).
  { intros Hv. rewrite Hrun, (NextResponse_json_refused _ _ Hv). reflexivity. }
  split; [ | split; [ exact Hvalid | split; [ | exact Hrefused ] ] ].
  - intros ev Hin.
    destruct (valid_status (to_unsigned_short code)) eqn:Hv.
    + rewrite (Hvalid eq_refl) in Hin. destruct Hin as [<-|[]].
      split; reflexivity.
    + rewrite (Hrefused eq_refl) in Hin. destruct Hin as [<-|[<-|[]]];
        split; reflexivity.
  - intros Hv. pose proof (to_unsigned_short_valid _ Hv) as E.
    rewrite E in Hvalid. apply Hvalid. exact Hv.
Qed.

(** C2, witness: a refusal with message "Forbidden" and code 403. *)
Lemma C2_auth_failure_short_circuit_witness :
  apiHandler Fixtures.forbiddenOptions
    (Fixtures.createMockRequest "POST" None [] []) None =
    ([EvAuth VUndefined],
     {| status := 403; body := VObj [("error", VStr "Forbidden")] |}).
Proof.
  destruct (C2_auth_failure_short_circuit Fixtures.forbiddenOptions
              (Fixtures.createMockRequest "POST" None [] []) None
              (Fixtures.fixedAuth (Fixtures.authFailure (Some "Forbidden") (Some 403%Z)))
              (Fixtures.authFailure (Some "Forbidden") (Some 403%Z))
              eq_refl eq_refl eq_refl) as (_ & _ & Hrun & _).
  apply Hrun. reflexivity.
Defined.

(** C2, as stated, fails: an auth outcome whose error message is present
    but empty is answered with "Unauthorized", not with that message. *)
Lemma C2_counterexample :
  snd (apiHandler Fixtures.emptyMessageOptions
         (Fixtures.createMockRequest "POST" None [] []) None)
  <> claimed_auth_failure_response (Fixtures.authFailure (Some "") (Some 403%Z)).
Proof. cbn. discriminate. Qed.

(* ================================================================== *)
(** ** Uncaught exceptions *)
(* ================================================================== *)

(** The blocks wrapped in their own [try]/[catch] never throw. *)
Lemma caught_slots_never_throw o r ctx s st e :
  s = SBody \/ s = SFormData -> snd (slot_phase o r ctx s st) <> Thrown e.
Proof.
  intros [->| ->]; unfold_block; run_block; discriminate.
Qed.

(** C7.  Whatever is thrown by the auth handler, by a validation block
    that does not catch it, or by the business handler, the answer is the
    fixed 500 response: status 500 and a body that holds the constant
    message and nothing of the thrown value. *)
Theorem C7_uncaught_exception o r ctx :
  (forall a e,
     auth o = Some a -> auth_handler a r (auth_options a) = Raised e ->
     apiHandler o r ctx =
       ([EvAuth (auth_options a); EvConsoleError e], internal_error_response)) /\
  (forall ea st0 ev e,
     authenticate o r initLocals = (ea, Normal st0) ->
     validate o r ctx st0 = (ev, Thrown e) ->
     apiHandler o r ctx = (ea ++ ev ++ [EvConsoleError e], internal_error_response)) /\
  (forall st e,
     validated o r ctx st -> errors st = [] ->
     handler o (handler_params st r) = Raised e ->
     snd (apiHandler o r ctx) = internal_error_response) /\
  (forall evs e,
     apiHandler_try o r ctx = (evs, Thrown e) ->
     apiHandler o r ctx = (evs ++ [EvConsoleError e], internal_error_response)) /\
  internal_error_response =
    {| status := 500; body := VObj [("error", VStr "Internal server error")] |}.
Proof.
  repeat split.
  - intros a e Ha He.
    unfold apiHandler, apiHandler_try, authenticate, call_auth.
    rewrite Ha. cbn. rewrite He. reflexivity.
  - intros ea st0 ev e Ha Hv.
    unfold apiHandler, apiHandler_try. rewrite Ha. cbn. rewrite Hv. cbn.
    rewrite <- app_assoc. reflexivity.
  - intros st e (ea & st0 & ev & Ha & Hv) He Hh.
    rewrite (validated_run _ _ _ _ _ _ _ Ha Hv), He, Hh. reflexivity.
  - intros evs e Ht. unfold apiHandler. rewrite Ht. reflexivity.
Qed.

(** C7, witness: a query schema whose refinement throws. *)
Lemma C7_uncaught_exception_witness :
  apiHandler (Fixtures.with_query Fixtures.throwingSchema
                (Fixtures.plainOptions (Fixtures.mockResolvedValue VNull)))
             Fixtures.validQueryHeaderRequest None =
    ([EvSafeParse SQuery (VObj [("q", VStr "bar")]);
      EvConsoleError (VStr "refinement failed")],
     {| status := 500; body := VObj [("error", VStr "Internal server error")] |}).
Proof.
  apply (proj1 (proj2 (C7_uncaught_exception
           (Fixtures.with_query Fixtures.throwingSchema
              (Fixtures.plainOptions (Fixtures.mockResolvedValue VNull)))
           Fixtures.validQueryHeaderRequest None))
         [] initLocals [EvSafeParse SQuery (VObj [("q", VStr "bar")])]
         (VStr "refinement failed")); reflexivity.
Defined.

(* ================================================================== *)
(** ** The slots one by one *)
(* ================================================================== *)

Ltac slot_block H :=
  unfold slot_calls, slot_error, slot_value, raw_body, query_raw, headers_raw;
  unfold_block; rewrite ?H; run_block; repeat split; reflexivity.

Lemma body_block o r ctx schema :
  bodySchema o = Some schema ->
  slot_calls o r ctx SBody =
    (if includes ["GET"; "HEAD"] (method r) then [] else [EvJson]) ++
    match raw_body r with
    | Done raw => [EvSafeParse SBody raw]
    | Raised _ => []
    end /\
  slot_error o r ctx SBody =
    match raw_body r with
    | Done raw =>
        match safeParse schema raw with
        | Done (SafeParseSuccess _) => None
        | Done (SafeParseError err) => Some (format err)
        | Raised _ => Some (VStr "Invalid JSON in request body")
        end
    | Raised _ => Some (VStr "Invalid JSON in request body")
    end.
Proof. intros H. slot_block H. Qed.

Lemma formData_block o r ctx schema :
  formDataSchema o = Some schema ->
  slot_calls o r ctx SFormData =
    EvFormData ::
    match formData r with
    | Done entries => [EvSafeParse SFormData (VObj (collect_entries entries))]
    | Raised _ => []
    end /\
  slot_error o r ctx SFormData =
    match formData r with
    | Done entries =>
        match safeParse schema (VObj (collect_entries entries)) with
        | Done (SafeParseSuccess _) => None
        | Done (SafeParseError err) => Some (format err)
        | Raised _ => Some (VStr "Invalid form data")
        end
    | Raised _ => Some (VStr "Invalid form data")
    end.
Proof. intros H. slot_block H. Qed.



Lemma pathParams_skipped o r ctx :
  truthy (context_params ctx) = false ->
  slot_calls o r ctx SPathParams = [] /\
  slot_error o r ctx SPathParams = None /\
  slot_value o r ctx SPathParams = VUndefined.
Proof.
  intros Ht.
  unfold slot_calls, slot_error, slot_value; unfold_block; rewrite Ht;
    run_block; repeat split; reflexivity.
Qed.


(* ================================================================== *)
(** ** The calls of a run *)
(* ================================================================== *)

(** Every call of a run is one the source makes, under its condition. *)
Lemma apiHandler_events o r ctx :
  Forall (pipeline_event o r ctx) (fst (apiHandler o r ctx)).
Proof.
  apply apiHandler_cases. intros run H.
  assert (Hauth : forall ea c, authenticate o r initLocals = (ea, c) ->
                               Forall (pipeline_event o r ctx) ea).
  { intros ea c E. pose proof (authenticate_events o r ctx initLocals) as A.
    rewrite E in A. exact A. }
  assert (Hval : forall st0 ev c, validate o r ctx st0 = (ev, c) ->
                                  Forall (pipeline_event o r ctx) ev).
  { intros st0 ev c E.
    pose proof (validate_Forall (pipeline_event o r ctx) o r ctx st0
                  (slot_calls_pipeline o r ctx)) as V.
    rewrite E in V. exact V. }
  destruct H as
    [ea resp Ha|ea e Ha|ea st0 ev e Ha Hv|ea st0 ev st Ha Hv He
    |ea st0 ev st out Ha Hv He Hh Hout|ea st0 ev st Ha Hv He Hh
    |ea st0 ev st e Ha Hv He Hh]; simpl;
    repeat (apply Forall_app; split);
    repeat (apply Forall_cons || apply Forall_nil);
    eauto using pe_console.
  - apply pe_handler; [ exists ea, st0, ev; auto | assumption ].
  - apply pe_handler; [ exists ea, st0, ev; auto | assumption ].
  - apply pe_handler; [ exists ea, st0, ev; auto | assumption ].
Qed.

(** A completed validation has made the calls of every slot. *)
Lemma validated_events o r ctx st :
  validated o r ctx st ->
  exists ea tail,
    fst (apiHandler o r ctx) =
      ea ++ concat (map (slot_calls o r ctx) all_slots) ++ tail.
Proof.
  intros (ea & st0 & ev & Ha & Hv).
  rewrite (validated_run _ _ _ _ _ _ _ Ha Hv).
  apply validate_complete in Hv. destruct Hv as (-> & _).
  destruct (errors st);
    [ destruct (handler o (handler_params st r)) as [out|e];
      [ destruct (NextResponse_json out None) | ] | ];
    simpl fst.
  - eexists ea, _. reflexivity.
  - eexists ea, _. reflexivity.
  - eexists ea, _. reflexivity.
  - exists ea, []. simpl. rewrite !app_nil_r. reflexivity.
Qed.

Lemma validated_slot_calls o r ctx st s ev :
  validated o r ctx st ->
  In ev (slot_calls o r ctx s) -> In ev (fst (apiHandler o r ctx)).
Proof.
  intros Hval Hin.
  destruct (validated_events _ _ _ _ Hval) as (ea & tail & ->).
  rewrite !in_app_iff. right. left.
  apply in_concat. exists (slot_calls o r ctx s). split; [ | exact Hin ].
  apply in_map. destruct s; simpl; auto 6.
Qed.

(** A completed validation with errors is answered with all of them. *)
Lemma validated_rejected o r ctx st :
  validated o r ctx st -> errors st <> [] ->
  snd (apiHandler o r ctx) =
    {| status := 400; body := VObj [("errors", VObj (errors st))] |}.
Proof.
  intros (ea & st0 & ev & Ha & Hv) Hne.
  rewrite (validated_run _ _ _ _ _ _ _ Ha Hv).
  destruct (errors st); [ congruence | reflexivity ].
Qed.

Lemma obj_get_not_nil {A} (o : Obj A) k v : obj_get o k = Some v -> o <> [].
Proof. destruct o; simpl; [ discriminate | discriminate ]. Qed.

(** The handler is only called after a completed validation without
    errors, with the locals it left. *)
Lemma handler_call_inv o r ctx p :
  In (EvHandler p) (fst (apiHandler o r ctx)) ->
  exists st, validated o r ctx st /\ errors st = [] /\ p = handler_params st r.
Proof.
  intros Hin.
  pose proof (apiHandler_events o r ctx) as Hall.
  rewrite Forall_forall in Hall. specialize (Hall _ Hin).
  inversion Hall; subst. eauto.
Qed.

(* ================================================================== *)
(** ** Aggregation of validation errors *)
(* ================================================================== *)



(* ================================================================== *)
(** ** The body slot *)
(* ================================================================== *)

(** C5.  With a body schema configured: for GET and HEAD the body is never
    read from the request and the value validated is the empty object;
    when reading or parsing the body fails, the schema is not called for
    the body and the body error is the fixed message; when the schema
    rejects the parsed body, the body error is the tree [error.format()]
    gives.  The body error is the one found under [body] in the mapping of
    a completed validation, and it makes the answer a 400. *)
Theorem C5_body_slot o r ctx schema :
  bodySchema o = Some schema ->
  (includes ["GET"; "HEAD"] (method r) = true ->
     ~ In EvJson (fst (apiHandler o r ctx)) /\
     (forall raw, In (EvSafeParse SBody raw) (fst (apiHandler o r ctx)) ->
                  raw = VObj []) /\
     slot_calls o r ctx SBody = [EvSafeParse SBody (VObj [])]) /\
  (forall e,
     includes ["GET"; "HEAD"] (method r) = false -> json r = Raised e ->
     (forall raw, ~ In (EvSafeParse SBody raw) (fst (apiHandler o r ctx))) /\
     slot_calls o r ctx SBody = [EvJson] /\
     slot_error o r ctx SBody = Some (VStr "Invalid JSON in request body")) /\
  (forall raw err,
     raw_body r = Done raw -> safeParse schema raw = Done (SafeParseError err) ->
     slot_error o r ctx SBody = Some (format err)) /\
  (forall st, validated o r ctx st ->
     obj_get (errors st) "body" = slot_error o r ctx SBody /\
     (forall ev, In ev (slot_calls o r ctx SBody) ->
                 In ev (fst (apiHandler o r ctx))) /\
     (slot_error o r ctx SBody <> None ->
      snd (apiHandler o r ctx) =
        {| status := 400; body := VObj [("errors", VObj (errors st))] |})).
Proof.
  intros Hs.
  destruct (body_block o r ctx schema Hs) as (Hcalls & Herror).
  pose proof (apiHandler_events o r ctx) as Hall.
  rewrite Forall_forall in Hall.
  repeat split.
  - intros Hin. apply Hall in Hin. inversion Hin; congruence.
  - intros raw Hin. apply Hall in Hin. inversion Hin; congruence.
  - rewrite Hcalls. unfold raw_body. rewrite H. reflexivity.
  - intros raw Hin. apply Hall in Hin. inversion Hin; congruence.
  - rewrite Hcalls. unfold raw_body. rewrite H, H0. reflexivity.
  - rewrite Herror. unfold raw_body. rewrite H, H0. reflexivity.
  - intros raw err Hraw Hparse. rewrite Herror, Hraw, Hparse. reflexivity.
  - destruct (validated_locals _ _ _ _ H) as (_ & _ & _ & _ & Herr).
    apply (Herr SBody).
  - intros ev. apply validated_slot_calls with (st := st). assumption.
  - intros Hne. apply validated_rejected; [ assumption | ].
    destruct (validated_locals _ _ _ _ H) as (_ & _ & _ & _ & Herr).
    specialize (Herr SBody). simpl in Herr.
    destruct (errors st); [ | discriminate ].
    simpl in Herr. congruence.
Qed.

(** C5, witness: a POST whose body is not JSON is answered with the fixed
    message under [body], and the body schema is not called. *)
Lemma C5_body_slot_witness :
  let request := {| method := "POST"; json := Raised (VStr "Unexpected token");
                    formData := Done []; searchParams := []; headers := [] |} in
  apiHandler Fixtures.fooOptions request None =
    ([EvJson],
     {| status := 400;
        body := VObj [("errors",
                       VObj [("body", VStr "Invalid JSON in request body")])] |}) /\
  slot_error Fixtures.fooOptions request None SBody =
    Some (VStr "Invalid JSON in request body").
Proof.
  intros request.
  split; [ reflexivity | ].
  apply (proj1 (proj2 (C5_body_slot Fixtures.fooOptions request None
                         Fixtures.fooSchema eq_refl))
           (VStr "Unexpected token") eq_refl eq_refl).
Defined.

(* ================================================================== *)
(** ** Path parameters *)
(* ================================================================== *)

Lemma validate_without_pathParams o r ctx st :
  truthy (context_params ctx) = false ->
  validate (without_pathParams o) r ctx st = validate o r ctx st.
Proof.
  intros Ht.
  unfold validate, validateBody, validateFormData, validateQuery,
    validatePathParams, validateHeaders. cbn [bodySchema formDataSchema
    querySchema pathParamsSchema headerSchema without_pathParams].
  rewrite Ht. destruct (pathParamsSchema o); reflexivity.
Qed.

(** C8.  The path-parameter schema is called only with the parameters of
    the context, and only when the context supplies them ([context?.params]
    is truthy).  When the context supplies none, the request is handled as
    if no path-parameter schema were configured: same calls, same answer,
    and no [pathParams] error. *)
Theorem C8_path_params_need_context o r ctx :
  (forall raw,
     In (EvSafeParse SPathParams raw) (fst (apiHandler o r ctx)) ->
     raw = context_params ctx /\ truthy (context_params ctx) = true /\
     pathParamsSchema o <> None) /\
  (truthy (context_params ctx) = false ->
     apiHandler o r ctx = apiHandler (without_pathParams o) r ctx /\
     slot_error o r ctx SPathParams = None /\
     forall st, validated o r ctx st ->
                obj_get (errors st) "pathParams" = None /\
                l_pathParams st = VUndefined) /\
  truthy (context_params None) = false /\
  truthy (context_params (Some {| params := VUndefined |})) = false.
Proof.
  repeat split; try reflexivity.
  - pose proof (apiHandler_events o r ctx) as Hall.
    rewrite Forall_forall in Hall. apply Hall in H. inversion H; subst.
    reflexivity.
  - pose proof (apiHandler_events o r ctx) as Hall.
    rewrite Forall_forall in Hall. apply Hall in H. inversion H; subst.
    assumption.
  - pose proof (apiHandler_events o r ctx) as Hall.
    rewrite Forall_forall in Hall. apply Hall in H. inversion H; subst.
    congruence.
  - unfold apiHandler, apiHandler_try.
    change (authenticate (without_pathParams o) r initLocals)
      with (authenticate o r initLocals).
    destruct (authenticate o r initLocals) as [ea [st0|resp|e]]; simpl;
      try reflexivity.
    rewrite (validate_without_pathParams o r ctx st0 H).
    destruct (validate o r ctx st0) as [ev [st|resp|e]]; reflexivity.
  - apply (pathParams_skipped o r ctx H).
  - destruct (validated_locals _ _ _ _ H0) as (_ & _ & _ & _ & Herr).
    etransitivity; [ apply (Herr SPathParams) | ].
    apply (pathParams_skipped o r ctx H).
  - destruct (validated_locals _ _ _ _ H0) as (_ & _ & Hp & _).
    rewrite Hp. apply (pathParams_skipped o r ctx H).
Qed.

(** C8, witness: without a context the path-parameter schema, which would
    reject, is not consulted and the request reaches the handler. *)
Lemma C8_path_params_need_context_witness :
  let o := Fixtures.with_pathParams Fixtures.fooSchema
             (Fixtures.plainOptions (Fixtures.mockResolvedValue (VObj [("ok", VBool true)]))) in
  let r := Fixtures.createMockRequest "GET" None [] [] in
  apiHandler o r None = apiHandler (without_pathParams o) r None /\
  snd (apiHandler o r None) = {| status := 200; body := VObj [("ok", VBool true)] |}.
Proof.
  intros o r.
  destruct (proj1 (proj2 (C8_path_params_need_context o r None)) eq_refl)
    as (Hsame & _).
  split; [ exact Hsame | ].
  rewrite Hsame. reflexivity.
Defined.

(* ================================================================== *)
(** ** Body and form data share one local *)
(* ================================================================== *)

Lemma validate_formData_body o r ctx st0 ev st schema entries d :
  formDataSchema o = Some schema ->
  formData r = Done entries ->
  safeParse schema (VObj (collect_entries entries)) = Done (SafeParseSuccess d) ->
  validate o r ctx st0 = (ev, Normal st) ->
  l_body st = d.
Proof.
  intros Hs Hf Hp H. apply validate_Normal in H.
  destruct H as (st1 & st2 & st3 & st4 & e1 & e2 & e3 & e4 & e5
                 & _ & H2 & H3 & H4 & H5 & _).
  apply slot_phase_Normal in H3. destruct H3 as (_ & _ & _ & _ & F3 & _).
  apply slot_phase_Normal in H4. destruct H4 as (_ & _ & _ & _ & F4 & _).
  apply slot_phase_Normal in H5. destruct H5 as (_ & _ & _ & _ & F5 & _).
  change (slot_field SBody st = d).
  rewrite (F5 SBody eq_refl), (F4 SBody eq_refl), (F3 SBody eq_refl).
  revert H2. unfold_block. rewrite Hs, Hf. cbn. rewrite Hp. cbn.
  intros H2. inversion H2. reflexivity.
Qed.

(** C9.  With both a body schema and a form-data schema configured and
    both accepting, the form-data schema is called after the body schema,
    its result replaces the body result in the local [body], and that is
    what the business handler receives as [body]. *)
Theorem C9_form_data_overwrites_body o r ctx bs fs raw d1 entries d2 :
  bodySchema o = Some bs ->
  formDataSchema o = Some fs ->
  raw_body r = Done raw ->
  safeParse bs raw = Done (SafeParseSuccess d1) ->
  formData r = Done entries ->
  safeParse fs (VObj (collect_entries entries)) = Done (SafeParseSuccess d2) ->
  (forall p, In (EvHandler p) (fst (apiHandler o r ctx)) -> hp_body p = d2) /\
  slot_value o r ctx SBody = d1 /\
  slot_value o r ctx SFormData = d2 /\
  (forall st, validated o r ctx st ->
     l_body st = d2 /\
     exists pre post,
       fst (apiHandler o r ctx) =
         pre ++ [EvSafeParse SBody raw; EvFormData;
                 EvSafeParse SFormData (VObj (collect_entries entries))] ++ post).
Proof.
  intros Hb Hf Hraw Hpb Hfd Hpf.
  assert (Hbody : forall st, validated o r ctx st -> l_body st = d2).
  { intros st (ea & st0 & ev & _ & Hv).
    eapply validate_formData_body; eauto. }
  repeat split.
  - intros p Hin. apply handler_call_inv in Hin.
    destruct Hin as (st & Hval & _ & ->). simpl. apply Hbody, Hval.
  - unfold slot_value, raw_body in *. unfold_block. rewrite Hb.
    destruct (includes ["GET"; "HEAD"] (method r)).
    + inversion Hraw; subst. cbn. rewrite Hpb. reflexivity.
    + rewrite Hraw. cbn. rewrite Hpb. reflexivity.
  - unfold slot_value. unfold_block. rewrite Hf, Hfd. cbn. rewrite Hpf.
    reflexivity.
  - apply Hbody, H.
  - destruct (validated_events _ _ _ _ H) as (ea & tail & ->).
    destruct (body_block o r ctx bs Hb) as (Hcb & _).
    destruct (formData_block o r ctx fs Hf) as (Hcf & _).
    simpl concat. rewrite Hcb, Hcf, Hraw, Hfd.
    exists (ea ++ (if includes ["GET"; "HEAD"] (method r) then [] else [EvJson])).
    eexists. rewrite <- !app_assoc. simpl. reflexivity.
Qed.

(** C9, witness: a GET endpoint with both schemas; the body schema accepts
    the empty object, the form-data schema accepts the form, and the
    handler receives the form. *)
Lemma C9_form_data_overwrites_body_witness :
  let anything := {| kind := ZodOther;
                     safeParse := fun raw => Done (SafeParseSuccess raw) |} in
  let o := Fixtures.with_body anything
             (Fixtures.with_formData Fixtures.fooSchema
                (Fixtures.plainOptions (Fixtures.mockResolvedValue VNull))) in
  let r := {| method := "GET"; json := Done (VObj []);
              formData := Done [("foo", VStr "bar")];
              searchParams := []; headers := [] |} in
  exists p, In (EvHandler p) (fst (apiHandler o r None)) /\
            hp_body p = VObj [("foo", VStr "bar")].
Proof.
  intros anything o r.
  eexists. split.
  - cbn. right. right. right. left. reflexivity.
  - apply (proj1 (C9_form_data_overwrites_body o r None anything Fixtures.fooSchema
                    (VObj []) (VObj []) [("foo", VStr "bar")]
                    (VObj [("foo", VStr "bar")])
                    eq_refl eq_refl eq_refl eq_refl eq_refl eq_refl)).
    cbn. right. right. right. left. reflexivity.
Defined.

(* ================================================================== *)
(** ** Path normalization *)
(* ================================================================== *)

Lemma replace_brackets_no_bracket s :
  includes_char "[" s = false -> replace_brackets s = s.
Proof.
  induction s as [|c rest IH]; simpl; [ reflexivity | ].
  destruct (Ascii.eqb c "["); simpl; [ discriminate | ].
  intros H. rewrite IH by exact H. reflexivity.
Qed.

Lemma append_cons g c s :
  ((g ++ String c EmptyString) ++ s = g ++ String c s)%string.
Proof. induction g as [|c' g IH]; simpl; [ reflexivity | rewrite IH; reflexivity ]. Qed.

(** A rewriting that produces no '{' has rewritten nothing. *)
Lemma replace_brackets_no_brace s :
  (includes_char "{" (replace_brackets s) = false -> replace_brackets s = s) /\
  (forall g, includes_char "{" (capture s g) = false ->
             capture s g = String "[" (g ++ s)%string).
Proof.
  induction s as [|c rest [IHr IHc]]; simpl.
  - split; [ reflexivity | ].
    intros g _. induction g as [|c' g IH]; simpl; [ reflexivity | ].
    inversion IH as [E]. rewrite <- E. congruence.
  - split.
    + destruct (Ascii.eqb_spec c "[") as [->|Hc].
      * intros H. rewrite (IHc EmptyString H). reflexivity.
      * simpl. intros H. apply orb_false_iff in H. destruct H as [_ H].
        rewrite (IHr H). reflexivity.
    + intros g. destruct (Ascii.eqb_spec c "]") as [->|Hc].
      * destruct g as [|c' g]; simpl.
        -- intros H. rewrite (IHr H). reflexivity.
        -- discriminate.
      * intros H. rewrite (IHc _ H), append_cons. reflexivity.
Qed.

Lemma openApiPath_idempotent path : openApiPath (openApiPath path) = openApiPath path.
Proof.
  unfold openApiPath.
  destruct (includes_char "{" path) eqn:Hp.
  - rewrite Hp. reflexivity.
  - destruct (includes_char "{" (replace_brackets path)) eqn:Hq; [ reflexivity | ].
    rewrite (proj1 (replace_brackets_no_brace path) Hq). exact (proj1 (replace_brackets_no_brace path) Hq).
Qed.

Lemma stored_paths_register method path bs qs ps hs fs rs a md registry :
  stored_paths (registerOpenApiRoute method path bs qs ps hs fs rs a md registry) =
    stored_paths registry ++ [openApiPath path].
Proof.
  unfold stored_paths, registerOpenApiRoute, registerPath. simpl.
  rewrite map_app. reflexivity.
Qed.

(** C4.  Registration stores the normalized path: [/users/[id]] and
    [/users/{id}] are both stored as [/users/{id}]; a path without bracket
    segments, and any path that is already the result of normalization, is
    stored unchanged. *)
Theorem C4_canonical_path :
  (forall method bs qs ps hs fs rs a md registry,
     stored_paths (registerOpenApiRoute method "/users/[id]"
                     bs qs ps hs fs rs a md registry) =
       stored_paths registry ++ ["/users/{id}"] /\
     stored_paths (registerOpenApiRoute method "/users/{id}"
                     bs qs ps hs fs rs a md registry) =
       stored_paths registry ++ ["/users/{id}"]) /\
  (forall method path bs qs ps hs fs rs a md registry,
     stored_paths (registerOpenApiRoute method path
                     bs qs ps hs fs rs a md registry) =
       stored_paths registry ++ [openApiPath path]) /\
  (forall method path o registry md,
     documented o = Some md ->
     stored_paths (fst (createDocumentedApiHandler method path o registry)) =
       stored_paths registry ++ [openApiPath path]) /\
  (forall path, includes_char "[" path = false -> openApiPath path = path) /\
  (forall path, openApiPath (openApiPath path) = openApiPath path).
Proof.
  repeat split; intros.
  - rewrite stored_paths_register. reflexivity.
  - rewrite stored_paths_register. reflexivity.
  - apply stored_paths_register.
  - unfold createDocumentedApiHandler. rewrite H. simpl.
    apply stored_paths_register.
  - unfold openApiPath. destruct (includes_char "{" path); [ reflexivity | ].
    apply replace_brackets_no_bracket, H.
  - apply openApiPath_idempotent.
Qed.

(** C4, witness: a documented endpoint at [/users/[id]] and the canonical
    path [/users/{id}]. *)
Lemma C4_canonical_path_witness :
  let o := Fixtures.with_openapi (Fixtures.metadata "User" (Some true))
             (Fixtures.plainOptions (Fixtures.mockResolvedValue VNull)) in
  stored_paths (fst (createDocumentedApiHandler get "/users/[id]" o
                       {| definitions := [] |})) = ["/users/{id}"] /\
  openApiPath "/users/{id}" = "/users/{id}".
Proof.
  intros o. split.
  - apply (proj1 (proj2 (proj2 C4_canonical_path)) get "/users/[id]" o
             {| definitions := [] |} (Fixtures.metadata "User" (Some true))).
    reflexivity.
  - apply (proj2 (proj2 (proj2 (proj2 C4_canonical_path))) "/users/[id]").
Defined.

(** C10.  Normalization is all-or-nothing on the presence of '{': a path
    that contains a '{' is stored unchanged, so [/a/{x}/b/[y]] keeps its
    [[y]]; only a path without '{' has its bracket segments rewritten. *)
Theorem C10_brace_disables_rewriting :
  (forall path, includes_char "{" path = true -> openApiPath path = path) /\
  (forall method path bs qs ps hs fs rs a md registry,
     includes_char "{" path = true ->
     stored_paths (registerOpenApiRoute method path
                     bs qs ps hs fs rs a md registry) =
       stored_paths registry ++ [path]) /\
  openApiPath "/a/{x}/b/[y]" = "/a/{x}/b/[y]" /\
  (forall path, includes_char "{" path = false ->
                openApiPath path = replace_brackets path) /\
  openApiPath "/a/[x]/b/[y]" = "/a/{x}/b/{y}" /\
  (forall path, openApiPath path <> path -> includes_char "{" path = false).
Proof.
  repeat split; intros; try reflexivity.
  - unfold openApiPath. rewrite H. reflexivity.
  - rewrite stored_paths_register. unfold openApiPath. rewrite H. reflexivity.
  - unfold openApiPath. rewrite H. reflexivity.
  - unfold openApiPath in H. destruct (includes_char "{" path); congruence.
Qed.

(** C10, witness: the mixed path is registered as it is. *)
Lemma C10_brace_disables_rewriting_witness :
  stored_paths
    (registerOpenApiRoute get "/a/{x}/b/[y]" None None None None None None None
       (Fixtures.metadata "Mixed" None) {| definitions := [] |}) =
    ["/a/{x}/b/[y]"].
Proof.
  apply (proj1 (proj2 C10_brace_disables_rewriting) get "/a/{x}/b/[y]"
           None None None None None None None
           (Fixtures.metadata "Mixed" None) {| definitions := [] |}).
  reflexivity.
Defined.

(* ================================================================== *)
(** ** Endpoints excluded from the documentation *)
(* ================================================================== *)

(** A documented endpoint is listed once in the document of a fresh
    registry, under its method and its normalized path. *)
Lemma documented_endpoint_listed method path o md cfg :
  documented o = Some md ->
  exists route,
    doc_entries
      (generateOpenApiDocument cfg
         (Some (fst (createDocumentedApiHandler method path o {| definitions := [] |}))))
      (HttpMethod_toLowerCase method) (openApiPath path) = [route] /\
    route_summary route = summary md.
Proof.
  intros H. unfold createDocumentedApiHandler. rewrite H.
  unfold doc_entries. cbn. rewrite String.eqb_refl.
  cbn. rewrite String.eqb_refl.
  eexists. split; reflexivity.
Qed.

(** C6.  An endpoint whose metadata sets [includeInDocs: false] leaves the
    registry as it was; the handler returned is the plain handler of the
    options; the generated document is the one generated before, and from
    a fresh registry it lists nothing at any method and path. *)
Theorem C6_docs_exclusion method path o registry md :
  openapi o = Some md ->
  includeInDocs md = Some false ->
  fst (createDocumentedApiHandler method path o registry) = registry /\
  (forall r ctx,
     snd (createDocumentedApiHandler method path o registry) r ctx =
       apiHandler o r ctx) /\
  (forall cfg,
     generateOpenApiDocument cfg
       (Some (fst (createDocumentedApiHandler method path o registry))) =
     generateOpenApiDocument cfg (Some registry)) /\
  (forall cfg m p,
     doc_entries
       (generateOpenApiDocument cfg
          (Some (fst (createDocumentedApiHandler method path o
                        {| definitions := [] |})))) m p = []).
Proof.
  intros Ho Hd.
  assert (E : forall reg, fst (createDocumentedApiHandler method path o reg) = reg).
  { intros reg. unfold createDocumentedApiHandler, documented.
    rewrite Ho, Hd. reflexivity. }
  repeat split; intros.
  - apply E.
  - rewrite E. reflexivity.
  - rewrite E. reflexivity.
Qed.

(** C6, witness: the hidden endpoint of the test 'does not register
    OpenAPI route when openapi.includeInDocs is false'. *)
Lemma C6_docs_exclusion_witness :
  let o := Fixtures.with_openapi (Fixtures.metadata "Hidden" (Some false))
             (Fixtures.plainOptions (Fixtures.mockResolvedValue (VObj []))) in
  definitions (fst (createDocumentedApiHandler get "/hidden" o
                      {| definitions := [] |})) = [] /\
  doc_entries
    (generateOpenApiDocument None
       (Some (fst (createDocumentedApiHandler get "/hidden" o
                     {| definitions := [] |})))) "get" "/hidden" = [] /\
  snd (snd (createDocumentedApiHandler get "/hidden" o {| definitions := [] |})
         (Fixtures.createMockRequest "GET" None [] []) None) =
    {| status := 200; body := VObj [] |}.
Proof.
  intros o.
  destruct (C6_docs_exclusion get "/hidden" o {| definitions := [] |}
              (Fixtures.metadata "Hidden" (Some false)) eq_refl eq_refl)
    as (Hreg & Hh & _ & Hdoc).
  split; [ rewrite Hreg; reflexivity | ].
  split; [ apply Hdoc | ].
  rewrite Hh. reflexivity.
Defined.

(* ================================================================== *)
(** ** Objects built by assignment *)
(* ================================================================== *)

Section ObjectFacts.
Context {A : Type}.
Implicit Types (o : Obj A) (k : string) (v : A).

Lemma obj_get_app o1 o2 k :
  obj_get (o1 ++ o2) k =
    match obj_get o1 k with
    | Some v => Some v
    | None => obj_get o2 k
    end.
Proof.
  induction o1 as [|[k0 v0] rest IH]; simpl; [ reflexivity | ].
  destruct (String.eqb k0 k); [ reflexivity | exact IH ].
Qed.

Lemma obj_get_None_keys o k : obj_get o k = None <-> ~ In k (obj_keys o).
Proof.
  unfold obj_keys. induction o as [|[k0 v0] rest IH]; simpl.
  - tauto.
  - destruct (String.eqb_spec k0 k) as [->|Hne].
    + split; [ discriminate | intros H; exfalso; apply H; auto ].
    + rewrite IH. tauto.
Qed.

Lemma obj_keys_set o k v :
  obj_keys (obj_set o k v) =
    if existsb (String.eqb k) (obj_keys o) then obj_keys o else obj_keys o ++ [k].
Proof.
  unfold obj_keys. induction o as [|[k0 v0] rest IH]; simpl; [ reflexivity | ].
  rewrite (String.eqb_sym k k0).
  destruct (String.eqb k0 k); simpl; [ reflexivity | ].
  rewrite IH. destruct (existsb (String.eqb k) (map fst rest)); reflexivity.
Qed.

Lemma obj_set_has_key o k v k' :
  has_key (obj_set o k v) k' <-> has_key o k' \/ k' = k.
Proof.
  unfold has_key. rewrite obj_keys_set.
  destruct (existsb (String.eqb k) (obj_keys o)) eqn:E.
  - apply existsb_exists in E. destruct E as (x & Hx & Ex).
    apply String.eqb_eq in Ex. subst x.
    split; [ auto | intros [H| ->]; assumption ].
  - rewrite in_app_iff. simpl. intuition congruence.
Qed.

Lemma obj_set_NoDup o k v :
  NoDup (obj_keys o) -> NoDup (obj_keys (obj_set o k v)).
Proof.
  intros Hnd. rewrite obj_keys_set.
  destruct (existsb (String.eqb k) (obj_keys o)) eqn:E; [ assumption | ].
  apply NoDup_app; [ assumption | repeat constructor; simpl; tauto | ].
  intros x Hx [E'|[]]. subst x.
  assert (existsb (String.eqb k) (obj_keys o) = true); [ | congruence ].
  apply existsb_exists. exists k. split; [ assumption | apply String.eqb_refl ].
Qed.

Lemma obj_spread_NoDup o entries :
  NoDup (obj_keys o) -> NoDup (obj_keys (obj_spread o entries)).
Proof.
  unfold obj_spread. revert o.
  induction entries as [|[k v] rest IH]; simpl; intros o Hnd; [ assumption | ].
  apply IH, obj_set_NoDup, Hnd.
Qed.

Lemma obj_get_spread o entries k :
  obj_get (obj_spread o entries) k =
    match obj_get (rev entries) k with
    | Some v => Some v
    | None => obj_get o k
    end.
Proof.
  unfold obj_spread. revert o.
  induction entries as [|[k0 v0] rest IH]; simpl; intros o; [ reflexivity | ].
  rewrite IH, obj_get_app, obj_get_set. simpl.
  destruct (obj_get (rev rest) k); [ reflexivity | ].
  destruct (String.eqb k0 k); reflexivity.
Qed.

Lemma obj_spread_has_key o entries k :
  has_key (obj_spread o entries) k <-> has_key o k \/ In k (map fst entries).
Proof.
  unfold obj_spread. revert o.
  induction entries as [|[k0 v0] rest IH]; simpl; intros o; [ tauto | ].
  rewrite IH, obj_set_has_key. intuition congruence.
Qed.

Lemma obj_get_rev_last (pre post : list (string * A)) k v :
  ~ In k (map fst post) ->
  obj_get (rev (pre ++ (k, v) :: post)) k = Some v.
Proof.
  intros Hpost. rewrite rev_app_distr. simpl. rewrite <- app_assoc, obj_get_app.
  assert (E : obj_get (rev post) k = None).
  { apply obj_get_None_keys. unfold obj_keys. rewrite map_rev, <- in_rev.
    exact Hpost. }
  rewrite E. simpl. rewrite String.eqb_refl. reflexivity.
Qed.

Lemma obj_get_In o k v :
  NoDup (obj_keys o) -> obj_get o k = Some v <-> In (k, v) o.
Proof.
  unfold obj_keys. induction o as [|[k0 v0] rest IH]; simpl; intros Hnd.
  - split; [ discriminate | tauto ].
  - inversion Hnd as [|? ? Hnotin Hnd']; subst.
    destruct (String.eqb_spec k0 k) as [->|Hne].
    + split.
      * intros E. inversion E. auto.
      * intros [E|Hin]; [ inversion E; reflexivity | ].
        exfalso. apply Hnotin. apply (in_map fst) in Hin. exact Hin.
    + rewrite (IH Hnd').
      split; [ auto | intros [E|H]; [ inversion E; congruence | exact H ] ].
Qed.

(** Reading a property does not depend on the order of the properties. *)
Lemma obj_get_Permutation o o' k :
  NoDup (obj_keys o) -> Permutation o o' -> obj_get o' k = obj_get o k.
Proof.
  intros Hnd Hp.
  assert (Hnd' : NoDup (obj_keys o')).
  { eapply Permutation_NoDup; [ apply Permutation_map, Hp | exact Hnd ]. }
  destruct (obj_get o k) as [v|] eqn:E.
  - apply obj_get_In; [ exact Hnd' | ].
    eapply Permutation_in; [ exact Hp | ]. apply obj_get_In; assumption.
  - destruct (obj_get o' k) as [v'|] eqn:E'; [ | reflexivity ].
    apply obj_get_In in E'; [ | exact Hnd' ].
    apply Permutation_sym in Hp. eapply Permutation_in in E'; [ | exact Hp ].
    apply obj_get_In in E'; [ congruence | exact Hnd ].
Qed.

Lemma insert_by_index_Permutation (kv : string * A) sorted :
  Permutation (insert_by_index kv sorted) (kv :: sorted).
Proof.
  induction sorted as [|kv' rest IH]; simpl; [ reflexivity | ].
  destruct (index_of kv <=? index_of kv')%N; [ reflexivity | ].
  rewrite IH. apply perm_swap.
Qed.

Lemma own_properties_Permutation o : Permutation (own_properties o) o.
Proof.
  unfold own_properties.
  assert (Hsort : forall l : Obj A, Permutation (fold_right insert_by_index [] l) l).
  { induction l as [|kv l IH]; simpl; [ constructor | ].
    rewrite insert_by_index_Permutation. constructor. exact IH. }
  rewrite Hsort.
  induction o as [|kv rest IH]; simpl; [ constructor | ].
  destruct (is_index kv); simpl.
  - constructor. exact IH.
  - rewrite <- Permutation_middle. constructor. exact IH.
Qed.

Lemma own_properties_get o k :
  NoDup (obj_keys o) -> obj_get (own_properties o) k = obj_get o k.
Proof.
  intros Hnd. apply obj_get_Permutation; [ exact Hnd | ].
  apply Permutation_sym, own_properties_Permutation.
Qed.

Lemma own_properties_has_key o k : has_key (own_properties o) k <-> has_key o k.
Proof.
  unfold has_key, obj_keys.
  pose proof (Permutation_map fst (own_properties_Permutation o)) as Hp.
  split; intros H.
  - eapply Permutation_in; [ exact Hp | exact H ].
  - eapply Permutation_in; [ apply Permutation_sym, Hp | exact H ].
Qed.

Lemma own_properties_NoDup o :
  NoDup (obj_keys o) -> NoDup (obj_keys (own_properties o)).
Proof.
  intros Hnd. eapply Permutation_NoDup; [ | exact Hnd ].
  apply Permutation_map, Permutation_sym, own_properties_Permutation.
Qed.

(** The integer-like properties come first, in ascending order, and the
    other properties follow in the order they were created. *)
Lemma insert_by_index_sorted (kv : string * A) sorted :
  StronglySorted (fun a b => (index_of a <= index_of b)%N) sorted ->
  StronglySorted (fun a b => (index_of a <= index_of b)%N)
    (insert_by_index kv sorted).
Proof.
  induction 1 as [|kv' rest Hs IH Hall]; simpl.
  - repeat constructor.
  - destruct (N.leb_spec (index_of kv) (index_of kv')) as [Hle|Hgt].
    + constructor; [ constructor; assumption | ].
      constructor; [ exact Hle | ].
      eapply Forall_impl; [ | exact Hall ]. simpl. intros x Hx. lia.
    + constructor; [ exact IH | ].
      eapply Permutation_Forall;
        [ apply Permutation_sym, insert_by_index_Permutation | ].
      constructor; [ lia | exact Hall ].
Qed.

Lemma own_properties_order o :
  exists indexed named,
    own_properties o = indexed ++ named /\
    Forall (fun kv => is_index kv = true) indexed /\
    StronglySorted (fun a b => (index_of a <= index_of b)%N) indexed /\
    named = filter (fun kv => negb (is_index kv)) o.
Proof.
  unfold own_properties. do 2 eexists. split; [ reflexivity | ].
  split; [ | split; [ | reflexivity ] ].
  - eapply Permutation_Forall.
    + apply Permutation_sym.
      assert (Hsort : forall l : Obj A,
                 Permutation (fold_right insert_by_index [] l) l).
      { induction l as [|kv l IH]; simpl; [ constructor | ].
        rewrite insert_by_index_Permutation. constructor. exact IH. }
      apply Hsort.
    + apply Forall_forall. intros x Hx. apply filter_In in Hx. tauto.
  - induction (filter is_index o) as [|kv l IH]; simpl.
    + constructor.
    + apply insert_by_index_sorted, IH.
Qed.

Lemma filter_proto_middle (pre post : list (string * A)) k v :
  k <> "__proto__" ->
  filter (fun kv => negb (String.eqb (fst kv) "__proto__")) (pre ++ (k, v) :: post) =
    filter (fun kv => negb (String.eqb (fst kv) "__proto__")) pre
    ++ (k, v) :: filter (fun kv => negb (String.eqb (fst kv) "__proto__")) post.
Proof.
  intros Hk. rewrite filter_app. simpl.
  destruct (String.eqb_spec k "__proto__"); [ contradiction | reflexivity ].
Qed.

Lemma filter_proto_keys (entries : list (string * A)) k :
  In k (map fst (filter (fun kv => negb (String.eqb (fst kv) "__proto__")) entries))
  <-> In k (map fst entries) /\ k <> "__proto__".
Proof.
  rewrite !in_map_iff. split.
  - intros ([k0 v0] & <- & Hin). apply filter_In in Hin. destruct Hin as [Hin Hb].
    simpl in *. split; [ exists (k0, v0); auto | ].
    destruct (String.eqb_spec k0 "__proto__"); [ discriminate | assumption ].
  - intros (([k0 v0] & <- & Hin) & Hne). exists (k0, v0). split; [ reflexivity | ].
    apply filter_In. split; [ exact Hin | ]. simpl in *.
    destruct (String.eqb_spec k0 "__proto__"); [ contradiction | reflexivity ].
Qed.

(** X1.  Collecting the entries of a request (query parameters, headers,
    form fields) into an object keeps one property per name, and a
    repeated name keeps its last value.  The name [__proto__] is the
    exception: it never becomes a property, whatever its position.  The
    integer-like names come first, in ascending order, and the others
    follow in the order they first occur. *)
Theorem collect_entries_last_wins (pre post : list (string * A)) k v :
  k <> "__proto__" ->
  ~ In k (map fst post) ->
  obj_get (collect_entries (pre ++ (k, v) :: post)) k = Some v /\
  NoDup (obj_keys (collect_entries (pre ++ (k, v) :: post))) /\
  (forall k', has_key (collect_entries (pre ++ (k, v) :: post)) k' <->
              In k' (map fst (pre ++ (k, v) :: post)) /\ k' <> "__proto__") /\
  obj_get (collect_entries (pre ++ (k, v) :: post)) "__proto__" = None /\
  exists indexed named,
    collect_entries (pre ++ (k, v) :: post) = indexed ++ named /\
    Forall (fun kv => is_index kv = true) indexed /\
    StronglySorted (fun a b => (index_of a <= index_of b)%N) indexed /\
    named =
      filter (fun kv => negb (is_index kv))
        (obj_spread []
           (filter (fun kv => negb (String.eqb (fst kv) "__proto__"))
              (pre ++ (k, v) :: post))).
Proof.
  intros Hk Hpost. unfold collect_entries.
  assert (Hnd : forall entries : list (string * A),
             NoDup (obj_keys (obj_spread [] entries))).
  { intros entries. apply obj_spread_NoDup. constructor. }
  assert (Hkeys : forall k',
             has_key
               (own_properties
                  (obj_spread []
                     (filter (fun kv => negb (String.eqb (fst kv) "__proto__"))
                        (pre ++ (k, v) :: post)))) k' <->
             In k' (map fst (pre ++ (k, v) :: post)) /\ k' <> "__proto__").
  { intros k'. rewrite own_properties_has_key, obj_spread_has_key, filter_proto_keys.
    unfold has_key. simpl. tauto. }
  split; [ | split; [ | split; [ exact Hkeys | split ] ] ].
  - rewrite own_properties_get by apply Hnd.
    rewrite filter_proto_middle by exact Hk.
    rewrite obj_get_spread, obj_get_rev_last; [ reflexivity | ].
    intros Hin. apply filter_proto_keys in Hin. apply Hpost, Hin.
  - apply own_properties_NoDup, Hnd.
  - apply obj_get_None_keys. intros Hin. apply Hkeys in Hin.
    destruct Hin as [_ Hne]. apply Hne. reflexivity.
  - apply own_properties_order.
Qed.

End ObjectFacts.

(** X1, witness: [?tag=a&10=x&__proto__=p&9=y&tag=b] is validated as
    [{ 9: 'y', 10: 'x', tag: 'b' }]. *)
Lemma collect_entries_last_wins_witness :
  obj_get
    (collect_entries
       [("tag", "a"); ("10", "x"); ("__proto__", "p"); ("9", "y"); ("tag", "b")])
    "tag" = Some "b" /\
  collect_entries
    [("tag", "a"); ("10", "x"); ("__proto__", "p"); ("9", "y"); ("tag", "b")] =
    [("9", "y"); ("10", "x"); ("tag", "b")].
Proof.
  split; [ | reflexivity ].
  apply (proj1 (collect_entries_last_wins
                  [("tag", "a"); ("10", "x"); ("__proto__", "p"); ("9", "y")] []
                  "tag" "b"
                  ltac:(discriminate)
                  (fun H : In "tag" (map fst []) => H))).
Defined.

(* ================================================================== *)
(** ** The error mapping decides the dispatch *)
(* ================================================================== *)

Lemma slot_phase_keys o r ctx s st evs st' :
  slot_phase o r ctx s st = (evs, Normal st') ->
  (forall k, has_key (errors st') k -> has_key (errors st) k \/ k = slot_key s) /\
  (NoDup (obj_keys (errors st)) -> NoDup (obj_keys (errors st'))).
Proof.
  destruct (slot_phase_uniform o r ctx s) as (evs0 & eff & Hs & Hu).
  rewrite Hu. intros H. inversion H as [[He Hr]]. clear H.
  destruct eff as [|s0 d|s0 v|e]; simpl in *; try discriminate;
    inversion Hr; subst; clear Hr.
  - auto.
  - destruct s; simpl; auto.
  - simpl. split.
    + intros k Hk. apply obj_set_has_key in Hk. exact Hk.
    + apply obj_set_NoDup.
Qed.

Lemma validated_error_keys o r ctx st :
  validated o r ctx st ->
  NoDup (obj_keys (errors st)) /\
  forall k, has_key (errors st) k -> exists s, k = slot_key s.
Proof.
  intros (ea & st0 & ev & Ha & Hv).
  apply authenticate_Normal in Ha.
  assert (E0 : errors st0 = []) by (rewrite Ha; reflexivity).
  apply validate_Normal in Hv.
  destruct Hv as (st1 & st2 & st3 & st4 & e1 & e2 & e3 & e4 & e5
                 & H1 & H2 & H3 & H4 & H5 & _).
  apply slot_phase_keys in H1, H2, H3, H4, H5.
  destruct H1 as (K1 & N1), H2 as (K2 & N2), H3 as (K3 & N3),
    H4 as (K4 & N4), H5 as (K5 & N5).
  split.
  - apply N5, N4, N3, N2, N1. rewrite E0. constructor.
  - intros k Hk.
    apply K5 in Hk. destruct Hk as [Hk|Hk]; [ | eauto ].
    apply K4 in Hk. destruct Hk as [Hk|Hk]; [ | eauto ].
    apply K3 in Hk. destruct Hk as [Hk|Hk]; [ | eauto ].
    apply K2 in Hk. destruct Hk as [Hk|Hk]; [ | eauto ].
    apply K1 in Hk. destruct Hk as [Hk|Hk]; [ | eauto ].
    rewrite E0 in Hk. destruct Hk.
Qed.

Lemma validated_no_errors o r ctx st :
  validated o r ctx st ->
  (errors st = [] <-> forall s, slot_error o r ctx s = None).
Proof.
  intros Hval.
  destruct (validated_locals _ _ _ _ Hval) as (_ & _ & _ & _ & Herr).
  destruct (validated_error_keys _ _ _ _ Hval) as (_ & Hkeys).
  split.
  - intros E s. rewrite <- Herr, E. reflexivity.
  - intros Hnone. destruct (errors st) as [|[k v] rest] eqn:E; [ reflexivity | ].
    exfalso. destruct (Hkeys k) as (s & ->).
    + unfold has_key. simpl. auto.
    + specialize (Herr s). rewrite Hnone in Herr. simpl in Herr.
      rewrite String.eqb_refl in Herr. discriminate.
Qed.

(** X2.  After a completed validation the error mapping has one key per
    failing slot and no other key, and it decides the dispatch: the
    business handler is called exactly when no slot recorded an error, and
    the answer is a 400 exactly when some slot did. *)
Theorem dispatch_iff_no_slot_error o r ctx st :
  validated o r ctx st ->
  NoDup (obj_keys (errors st)) /\
  (forall k, has_key (errors st) k <->
             exists s, k = slot_key s /\ slot_error o r ctx s <> None) /\
  (handler_calls (fst (apiHandler o r ctx)) = 1 <->
     forall s, slot_error o r ctx s = None) /\
  (status (snd (apiHandler o r ctx)) = 400%Z <->
     exists s, slot_error o r ctx s <> None).
Proof.
  intros Hval.
  destruct (validated_locals _ _ _ _ Hval) as (_ & _ & _ & _ & Herr).
  destruct (validated_error_keys _ _ _ _ Hval) as (Hnd & Hkeys).
  pose proof (validated_no_errors _ _ _ _ Hval) as Hiff.
  assert (Hsome : (exists s, slot_error o r ctx s <> None) <-> errors st <> []).
  { split.
    - intros (s & Hs) E. apply Hs. apply Hiff, E.
    - intros Hne. destruct (errors st) as [|[k v] rest] eqn:E; [ congruence | ].
      destruct (Hkeys k) as (s & ->).
      + unfold has_key. simpl. auto.
      + exists s. rewrite <- Herr. simpl. rewrite String.eqb_refl.
        discriminate. }
  split; [ exact Hnd | ]. split; [ | split ].
  - intros k. split.
    + intros Hk. destruct (Hkeys k Hk) as (s & ->). exists s.
      split; [ reflexivity | ]. rewrite <- Herr.
      intros Hn. apply obj_get_None_keys in Hn. apply Hn, Hk.
    + intros (s & -> & Hs). rewrite <- Herr in Hs.
      destruct (obj_get (errors st) (slot_key s)) eqn:G; [ | congruence ].
      eapply obj_get_has_key; eauto.
  - rewrite <- Hiff.
    destruct Hval as (ea & st0 & ev & Ha & Hv).
    rewrite (validated_run _ _ _ _ _ _ _ Ha Hv).
    pose proof (validated_quiet _ _ _ _ _ _ _ Ha Hv) as Hq.
    destruct (errors st) as [|kv rest].
    + split; [ reflexivity | intros _ ].
      destruct (handler o (handler_params st r)) as [out|e];
        [ destruct (NextResponse_json out None) | ]; simpl;
        rewrite app_assoc, handler_calls_app, Hq; reflexivity.
    + split; [ | discriminate ]. simpl. rewrite Hq. discriminate.
  - rewrite Hsome.
    destruct Hval as (ea & st0 & ev & Ha & Hv).
    rewrite (validated_run _ _ _ _ _ _ _ Ha Hv).
    destruct (errors st) as [|kv rest].
    + destruct (handler o (handler_params st r)) as [out|e];
        [ destruct (NextResponse_json out None) as [response|e] eqn:Hjson | ];
        simpl; split; try congruence; try discriminate.
      apply NextResponse_json_Done in Hjson. destruct Hjson as (-> & _).
      discriminate.
    + simpl. split; [ discriminate | reflexivity ].
Qed.

(** X2, witness: the rejected request of the tests has exactly the keys
    [query] and [headers]. *)
Lemma dispatch_iff_no_slot_error_witness :
  status (snd (apiHandler Fixtures.queryHeaderOptions
                 Fixtures.invalidQueryHeaderRequest None)) = 400%Z /\
  exists s, slot_error Fixtures.queryHeaderOptions
              Fixtures.invalidQueryHeaderRequest None s <> None.
Proof.
  pose (st := Fixtures.locals VUndefined VUndefined VUndefined
     [("query", format (Fixtures.field_issue "q"
                          "String must contain at least 2 character(s)"));
      ("headers", format (Fixtures.field_issue "x-custom-header" "Invalid"))]).
  assert (Hval : validated Fixtures.queryHeaderOptions
                   Fixtures.invalidQueryHeaderRequest None st).
  { do 3 eexists. split; reflexivity. }
  destruct (dispatch_iff_no_slot_error _ _ _ _ Hval) as (_ & _ & _ & H400).
  split; [ reflexivity | ].
  apply H400. reflexivity.
Defined.

(* ================================================================== *)
(** ** The answers and the order of the calls *)
(* ================================================================== *)

(** X3.  Every answer of [apiHandler] has one of four forms: the 200 that
    carries what the business handler resolved to, the 400 that carries a
    non-empty error mapping, the fixed 500 after something was thrown, or
    the answer to a failed authentication, whose status is the code of the
    auth outcome read as an unsigned short.  Nothing else is ever sent. *)
Theorem answer_forms o r ctx :
  (exists p out,
     handler o p = Done out /\ In (EvHandler p) (fst (apiHandler o r ctx)) /\
     snd (apiHandler o r ctx) = {| status := 200; body := out |}) \/
  (exists errs,
     errs <> [] /\ handler_calls (fst (apiHandler o r ctx)) = 0 /\
     snd (apiHandler o r ctx) =
       {| status := 400; body := VObj [("errors", VObj errs)] |}) \/
  (exists e,
     In (EvConsoleError e) (fst (apiHandler o r ctx)) /\
     snd (apiHandler o r ctx) =
       {| status := 500; body := VObj [("error", VStr "Internal server error")] |}) \/
  (exists a res,
     auth o = Some a /\ auth_handler a r (auth_options a) = Done res /\
     success res = false /\
     apiHandler o r ctx =
       ([EvAuth (auth_options a)],
        {| status := to_unsigned_short (or_number (auth_status res) 401);
           body := VObj [("error", VStr (or_string (error res) "Unauthorized"))] |})).
Proof.
  pattern (apiHandler o r ctx) at 1 2 3 4 5 6.
  apply apiHandler_cases. intros run H.
  destruct H as
    [ea resp Ha|ea e Ha|ea st0 ev e Ha Hv|ea st0 ev st Ha Hv He
    |ea st0 ev st out Ha Hv He Hh Hout|ea st0 ev st Ha Hv He Hh
    |ea st0 ev st e Ha Hv He Hh]; simpl.
  - right. right. right.
    apply authenticate_Returned in Ha.
    destruct Ha as (a & res & Hauth & Hres & Hfail & -> & Hjson).
    exists a, res. repeat split; auto.
    rewrite (auth_failure_run o r ctx a res Hauth Hres Hfail), Hjson.
    apply NextResponse_json_Done in Hjson. destruct Hjson as (-> & _).
    reflexivity.
  - right. right. left. exists e. split; [ | reflexivity ].
    rewrite in_app_iff. right. left. reflexivity.
  - right. right. left. exists e. split; [ | reflexivity ].
    rewrite !in_app_iff. right. right. left. reflexivity.
  - right. left. exists (errors st). repeat split; auto.
    apply (validated_quiet _ _ _ _ _ _ _ Ha Hv).
  - left. exists (handler_params st r), out. repeat split; auto.
    rewrite !in_app_iff. right. right. left. reflexivity.
  - right. right. left. exists TypeError. split; [ | reflexivity ].
    rewrite !in_app_iff. right. right. right. left. reflexivity.
  - right. right. left. exists e. split; [ | reflexivity ].
    rewrite !in_app_iff. right. right. right. left. reflexivity.
Qed.

Lemma authenticate_calls o r st :
  fst (authenticate o r st) =
    match auth o with
    | Some a => [EvAuth (auth_options a)]
    | None => []
    end.
Proof. unfold_block; run_block; reflexivity. Qed.

Lemma validate_no_auth o r ctx st :
  Forall (fun ev => is_auth_call ev = false) (fst (validate o r ctx st)).
Proof.
  apply validate_Forall. intros s.
  eapply Forall_impl; [ | apply slot_calls_slot ].
  intros [] Hs; simpl in *; reflexivity || discriminate.
Qed.

(** X4.  With auth configured the auth handler is called exactly once per
    request, with the configured options, before any read of the request,
    any schema and the business handler; without auth it is never called. *)
Theorem auth_called_first o r ctx :
  exists tail,
    Forall (fun ev => is_auth_call ev = false) tail /\
    fst (apiHandler o r ctx) =
      match auth o with
      | Some a => EvAuth (auth_options a) :: tail
      | None => tail
      end.
Proof.
  apply apiHandler_cases. intros run H.
  assert (Hea : forall ea c, authenticate o r initLocals = (ea, c) ->
            ea = match auth o with
                 | Some a => [EvAuth (auth_options a)]
                 | None => []
                 end).
  { intros ea c E. rewrite <- (authenticate_calls o r initLocals), E. reflexivity. }
  assert (Hev : forall st0 ev c, validate o r ctx st0 = (ev, c) ->
            Forall (fun e => is_auth_call e = false) ev).
  { intros st0 ev c E. pose proof (validate_no_auth o r ctx st0) as V.
    rewrite E in V. exact V. }
  destruct H as
    [ea resp Ha|ea e Ha|ea st0 ev e Ha Hv|ea st0 ev st Ha Hv He
    |ea st0 ev st out Ha Hv He Hh Hout|ea st0 ev st Ha Hv He Hh
    |ea st0 ev st e Ha Hv He Hh]; simpl;
    rewrite (Hea _ _ Ha).
  - exists []. split; [ constructor | destruct (auth o); reflexivity ].
  - exists [EvConsoleError e]. split; [ repeat constructor | ].
    destruct (auth o); reflexivity.
  - exists (ev ++ [EvConsoleError e]). split.
    + apply Forall_app. split; [ eapply Hev; eauto | repeat constructor ].
    + destruct (auth o); reflexivity.
  - exists ev. split; [ eapply Hev; eauto | destruct (auth o); reflexivity ].
  - exists (ev ++ [EvHandler (handler_params st r)]). split.
    + apply Forall_app. split; [ eapply Hev; eauto | repeat constructor ].
    + destruct (auth o); reflexivity.
  - exists (ev ++ [EvHandler (handler_params st r); EvConsoleError TypeError]). split.
    + apply Forall_app. split; [ eapply Hev; eauto | repeat constructor ].
    + destruct (auth o); reflexivity.
  - exists (ev ++ [EvHandler (handler_params st r); EvConsoleError e]). split.
    + apply Forall_app. split; [ eapply Hev; eauto | repeat constructor ].
    + destruct (auth o); reflexivity.
Qed.

(* ================================================================== *)
(** ** What the business handler receives *)
(* ================================================================== *)

(** The completion of each block on its own, by the result of its schema. *)
Lemma body_outcome o r ctx schema :
  bodySchema o = Some schema ->
  snd (slot_phase o r ctx SBody initLocals) =
    match raw_body r with
    | Done raw =>
        match safeParse schema raw with
        | Done (SafeParseSuccess d) => Normal (set_body initLocals d)
        | Done (SafeParseError err) =>
            Normal (set_error initLocals "body" (format err))
        | Raised _ =>
            Normal (set_error initLocals "body" (VStr "Invalid JSON in request body"))
        end
    | Raised _ =>
        Normal (set_error initLocals "body" (VStr "Invalid JSON in request body"))
    end.
Proof. intros H. unfold raw_body. unfold_block. rewrite H. run_block; reflexivity. Qed.

Lemma formData_outcome o r ctx schema :
  formDataSchema o = Some schema ->
  snd (slot_phase o r ctx SFormData initLocals) =
    match formData r with
    | Done entries =>
        match safeParse schema (VObj (collect_entries entries)) with
        | Done (SafeParseSuccess d) => Normal (set_body initLocals d)
        | Done (SafeParseError err) =>
            Normal (set_error initLocals "formData" (format err))
        | Raised _ =>
            Normal (set_error initLocals "formData" (VStr "Invalid form data"))
        end
    | Raised _ =>
        Normal (set_error initLocals "formData" (VStr "Invalid form data"))
    end.
Proof. intros H. unfold_block. rewrite H. run_block; reflexivity. Qed.

Lemma query_outcome o r ctx schema :
  querySchema o = Some schema ->
  snd (slot_phase o r ctx SQuery initLocals) =
    match safeParse schema (query_raw r) with
    | Done (SafeParseSuccess d) => Normal (set_query initLocals d)
    | Done (SafeParseError err) => Normal (set_error initLocals "query" (format err))
    | Raised e => Thrown e
    end.
Proof.
  intros H. unfold query_raw. unfold_block. rewrite H. run_block; reflexivity.
Qed.

Lemma pathParams_outcome o r ctx schema :
  pathParamsSchema o = Some schema ->
  truthy (context_params ctx) = true ->
  snd (slot_phase o r ctx SPathParams initLocals) =
    match safeParse schema (context_params ctx) with
    | Done (SafeParseSuccess d) => Normal (set_pathParams initLocals d)
    | Done (SafeParseError err) =>
        Normal (set_error initLocals "pathParams" (format err))
    | Raised e => Thrown e
    end.
Proof.
  intros H Ht. unfold_block. rewrite H, Ht. run_block; reflexivity.
Qed.

Lemma headers_outcome o r ctx schema :
  headerSchema o = Some schema ->
  snd (slot_phase o r ctx SHeaders initLocals) =
    match safeParse schema (headers_raw r) with
    | Done (SafeParseSuccess d) => Normal (set_headers initLocals d)
    | Done (SafeParseError err) => Normal (set_error initLocals "headers" (format err))
    | Raised e => Thrown e
    end.
Proof.
  intros H. unfold headers_raw. unfold_block. rewrite H. run_block; reflexivity.
Qed.

Lemma unconfigured_slot o r ctx s :
  match s with
  | SBody => bodySchema o
  | SFormData => formDataSchema o
  | SQuery => querySchema o
  | SPathParams => pathParamsSchema o
  | SHeaders => headerSchema o
  end = None ->
  forall st, slot_phase o r ctx s st = ([], Normal st).
Proof. destruct s; simpl; intros H st; unfold_block; rewrite H; reflexivity. Qed.

(** In a completed validation no block has thrown, so no block throws
    when it runs on its own. *)
Lemma validated_slot_Normal o r ctx st s :
  validated o r ctx st ->
  exists st1, snd (slot_phase o r ctx s initLocals) = Normal st1.
Proof.
  intros (ea & st0 & ev & _ & Hv). apply validate_Normal in Hv.
  destruct Hv as (st1 & st2 & st3 & st4 & e1 & e2 & e3 & e4 & e5
                 & H1 & H2 & H3 & H4 & H5 & _).
  destruct (slot_phase_uniform o r ctx s) as (evs & eff & _ & Hu).
  assert (Hn : forall sti e sti', slot_phase o r ctx s sti = (e, Normal sti') ->
                 exists st1, snd (slot_phase o r ctx s initLocals) = Normal st1).
  { intros sti e sti' E. rewrite Hu in E. rewrite Hu. simpl.
    destruct eff; simpl in *; try discriminate; eauto. }
  destruct s; eauto.
Qed.

(** The local [body] when no form-data schema is configured. *)
Lemma validate_body_only o r ctx st0 ev st :
  formDataSchema o = None ->
  l_body st0 = VUndefined ->
  validate o r ctx st0 = (ev, Normal st) ->
  l_body st = slot_value o r ctx SBody.
Proof.
  intros Hf H0 H. apply validate_Normal in H.
  destruct H as (st1 & st2 & st3 & st4 & e1 & e2 & e3 & e4 & e5
                 & H1 & H2 & H3 & H4 & H5 & _).
  rewrite (unconfigured_slot o r ctx SFormData Hf) in H2.
  inversion H2; subst.
  apply slot_phase_Normal in H1. destruct H1 as (_ & _ & _ & _ & _ & V1).
  apply slot_phase_Normal in H3. destruct H3 as (_ & _ & _ & _ & F3 & _).
  apply slot_phase_Normal in H4. destruct H4 as (_ & _ & _ & _ & F4 & _).
  apply slot_phase_Normal in H5. destruct H5 as (_ & _ & _ & _ & F5 & _).
  change (slot_field SBody st = slot_value o r ctx SBody).
  rewrite (F5 SBody eq_refl), (F4 SBody eq_refl), (F3 SBody eq_refl).
  apply V1. exact H0.
Qed.

(** X5.  Whenever the business handler is called, every configured schema
    has accepted its input, and the handler receives the data the schemas
    returned, not the raw input: the query, header and path-parameter data
    under their names, and under [body] the form data when a form-data
    schema is configured, the JSON body data otherwise (the body schema,
    when configured, has accepted all the same).  A slot without a schema,
    and path parameters without a context, are [undefined]. *)
Theorem handler_receives_schema_data o r ctx p :
  In (EvHandler p) (fst (apiHandler o r ctx)) ->
  hp_request p = r /\
  hp_user p = authenticated_user o r /\
  accepted (querySchema o) (query_raw r) (hp_query p) /\
  accepted (headerSchema o) (headers_raw r) (hp_headers p) /\
  (if truthy (context_params ctx)
   then accepted (pathParamsSchema o) (context_params ctx) (hp_pathParams p)
   else hp_pathParams p = VUndefined) /\
  match bodySchema o with
  | Some sch => exists raw d, raw_body r = Done raw /\
                              safeParse sch raw = Done (SafeParseSuccess d)
  | None => True
  end /\
  match formDataSchema o with
  | Some sch =>
      exists entries,
        formData r = Done entries /\
        safeParse sch (VObj (collect_entries entries)) = Done (SafeParseSuccess (hp_body p))
  | None =>
      match bodySchema o with
      | Some sch => exists raw, raw_body r = Done raw /\
                                safeParse sch raw = Done (SafeParseSuccess (hp_body p))
      | None => hp_body p = VUndefined
      end
  end.
Proof.
  intros Hin. apply handler_call_inv in Hin.
  destruct Hin as (st & Hval & He & ->).
  destruct (validated_locals _ _ _ _ Hval) as (Hu & Hq & Hp & Hh & _).
  pose proof (proj1 (validated_no_errors _ _ _ _ Hval) He) as Hnone.
  pose proof (fun s => validated_slot_Normal o r ctx st s Hval) as Hnormal.
  simpl. split; [ reflexivity | ]. split; [ exact Hu | ].
  split; [ | split; [ | split; [ | split ] ] ].
  - rewrite Hq. unfold accepted, slot_value.
    destruct (querySchema o) as [sch|] eqn:Hs.
    + pose proof (Hnone SQuery) as Hn. destruct (Hnormal SQuery) as (st1 & H1).
      unfold slot_error in Hn. rewrite (query_outcome o r ctx sch Hs) in *.
      destruct (safeParse sch (query_raw r)) as [[d|err]|e];
        [ reflexivity | | discriminate ].
      simpl in Hn. discriminate.
    + rewrite (unconfigured_slot o r ctx SQuery Hs). reflexivity.
  - rewrite Hh. unfold accepted, slot_value.
    destruct (headerSchema o) as [sch|] eqn:Hs.
    + pose proof (Hnone SHeaders) as Hn. destruct (Hnormal SHeaders) as (st1 & H1).
      unfold slot_error in Hn. rewrite (headers_outcome o r ctx sch Hs) in *.
      destruct (safeParse sch (headers_raw r)) as [[d|err]|e];
        [ reflexivity | | discriminate ].
      simpl in Hn. discriminate.
    + rewrite (unconfigured_slot o r ctx SHeaders Hs). reflexivity.
  - rewrite Hp. destruct (truthy (context_params ctx)) eqn:Ht.
    + unfold accepted, slot_value.
      destruct (pathParamsSchema o) as [sch|] eqn:Hs.
      * pose proof (Hnone SPathParams) as Hn.
        destruct (Hnormal SPathParams) as (st1 & H1).
        unfold slot_error in Hn. rewrite (pathParams_outcome o r ctx sch Hs Ht) in *.
        destruct (safeParse sch (context_params ctx)) as [[d|err]|e];
          [ reflexivity | | discriminate ].
        simpl in Hn. discriminate.
      * rewrite (unconfigured_slot o r ctx SPathParams Hs). reflexivity.
    + apply (pathParams_skipped o r ctx Ht).
  - destruct (bodySchema o) as [sch|] eqn:Hs; [ | exact I ].
    pose proof (Hnone SBody) as Hn. unfold slot_error in Hn.
    rewrite (body_outcome o r ctx sch Hs) in Hn.
    destruct (raw_body r) as [raw|e]; [ | simpl in Hn; discriminate ].
    destruct (safeParse sch raw) as [[d|err]|e] eqn:Hparse;
      try (simpl in Hn; discriminate).
    exists raw, d. split; [ reflexivity | exact Hparse ].
  - destruct (formDataSchema o) as [fs|] eqn:Hf.
    + pose proof (Hnone SFormData) as Hn. unfold slot_error in Hn.
      rewrite (formData_outcome o r ctx fs Hf) in Hn.
      destruct (formData r) as [entries|e] eqn:Hfd; [ | simpl in Hn; discriminate ].
      exists entries. split; [ reflexivity | ].
      destruct (safeParse fs (VObj (collect_entries entries))) as [[d|err]|e] eqn:Hpf;
        try (simpl in Hn; discriminate).
      destruct Hval as (ea & st0 & ev & _ & Hv).
      rewrite (validate_formData_body _ _ _ _ _ _ _ _ _ Hf Hfd Hpf Hv).
      reflexivity.
    + assert (Hb : l_body st = slot_value o r ctx SBody).
      { destruct Hval as (ea & st0 & ev & Ha & Hv).
        apply authenticate_Normal in Ha.
        eapply validate_body_only; eauto. rewrite Ha. reflexivity. }
      rewrite Hb. unfold slot_value.
      destruct (bodySchema o) as [sch|] eqn:Hs.
      * pose proof (Hnone SBody) as Hn. unfold slot_error in Hn.
        rewrite (body_outcome o r ctx sch Hs) in *.
        destruct (raw_body r) as [raw|e]; [ | simpl in Hn; discriminate ].
        exists raw. split; [ reflexivity | ].
        destruct (safeParse sch raw) as [[d|err]|e];
          try (simpl in Hn; discriminate). reflexivity.
      * rewrite (unconfigured_slot o r ctx SBody Hs). reflexivity.
Qed.

(** X5, witness: 'calls handler with validated data'. *)
Lemma handler_receives_schema_data_witness :
  exists p,
    In (EvHandler p) (fst (apiHandler Fixtures.fooOptions Fixtures.fooRequest None)) /\
    safeParse Fixtures.fooSchema (VObj [("foo", VStr "bar")]) =
      Done (SafeParseSuccess (hp_body p)) /\
    hp_query p = VUndefined.
Proof.
  eexists. split; [ cbn; right; right; left; reflexivity | ].
  destruct (handler_receives_schema_data Fixtures.fooOptions Fixtures.fooRequest None _
              (or_intror (or_intror (or_introl eq_refl))))
    as (_ & _ & Hq & _ & _ & _ & Hb).
  split; [ | exact Hq ].
  destruct Hb as (raw & Hraw & Hparse).
  inversion Hraw; subst. exact Hparse.
Defined.

(* ================================================================== *)
(** ** Dispatch: one handler call or one error answer *)
(* ================================================================== *)





(* ================================================================== *)
(** ** The slots that catch their own exceptions *)
(* ================================================================== *)

(** X6.  Body and form-data validation never end a request with the 500:
    their blocks never throw.  A form-data read that fails is recorded
    under [formData] as the fixed message "Invalid form data" and the
    form-data schema is not called; a rejection by the form-data schema is
    recorded under [formData] as its issue tree; an exception thrown by
    the body schema or by the form-data schema is recorded as the fixed
    message of that slot.  A completed validation then answers with the
    400 that holds the recorded error. *)
Theorem caught_slot_failures o r ctx :
  (forall s st e, s = SBody \/ s = SFormData ->
                  snd (slot_phase o r ctx s st) <> Thrown e) /\
  (forall sch e,
     formDataSchema o = Some sch -> formData r = Raised e ->
     slot_calls o r ctx SFormData = [EvFormData] /\
     slot_error o r ctx SFormData = Some (VStr "Invalid form data")) /\
  (forall sch entries err,
     formDataSchema o = Some sch -> formData r = Done entries ->
     safeParse sch (VObj (collect_entries entries)) = Done (SafeParseError err) ->
     slot_error o r ctx SFormData = Some (format err)) /\
  (forall sch entries e,
     formDataSchema o = Some sch -> formData r = Done entries ->
     safeParse sch (VObj (collect_entries entries)) = Raised e ->
     slot_error o r ctx SFormData = Some (VStr "Invalid form data")) /\
  (forall sch raw e,
     bodySchema o = Some sch -> raw_body r = Done raw ->
     safeParse sch raw = Raised e ->
     slot_error o r ctx SBody = Some (VStr "Invalid JSON in request body")) /\
  (forall st s v,
     validated o r ctx st -> slot_error o r ctx s = Some v ->
     obj_get (errors st) (slot_key s) = Some v /\
     snd (apiHandler o r ctx) =
       {| status := 400; body := VObj [("errors", VObj (errors st))] |}).
Proof.
  split; [ | split; [ | split; [ | split; [ | split ] ] ] ].
  - intros s st e Hs. apply caught_slots_never_throw. exact Hs.
  - intros sch e Hs Hf. destruct (formData_block o r ctx sch Hs) as (Hc & He).
    rewrite Hc, He, Hf. split; reflexivity.
  - intros sch entries err Hs Hf Hp.
    destruct (formData_block o r ctx sch Hs) as (_ & He).
    rewrite He, Hf, Hp. reflexivity.
  - intros sch entries e Hs Hf Hp.
    destruct (formData_block o r ctx sch Hs) as (_ & He).
    rewrite He, Hf, Hp. reflexivity.
  - intros sch raw e Hs Hraw Hp.
    destruct (body_block o r ctx sch Hs) as (_ & He).
    rewrite He, Hraw, Hp. reflexivity.
  - intros st s v Hval Hs.
    destruct (validated_locals _ _ _ _ Hval) as (_ & _ & _ & _ & Herr).
    rewrite <- Herr in Hs. split; [ exact Hs | ].
    apply validated_rejected; [ exact Hval | ].
    eapply obj_get_not_nil; eauto.
Qed.

(** X6, witness: a body schema whose refinement throws gives the 400 with
    the invalid-JSON message, although the body was valid JSON. *)
Lemma caught_slot_failures_witness :
  apiHandler (Fixtures.with_body Fixtures.throwingSchema
                (Fixtures.plainOptions (Fixtures.mockResolvedValue VNull)))
             Fixtures.fooRequest None =
    ([EvJson; EvSafeParse SBody (VObj [("foo", VStr "bar")])],
     {| status := 400;
        body := VObj [("errors",
                       VObj [("body", VStr "Invalid JSON in request body")])] |}) /\
  slot_error (Fixtures.with_body Fixtures.throwingSchema
                (Fixtures.plainOptions (Fixtures.mockResolvedValue VNull)))
             Fixtures.fooRequest None SBody =
    Some (VStr "Invalid JSON in request body").
Proof.
  split; [ reflexivity | ].
  apply (proj1 (proj2 (proj2 (proj2 (proj2
           (caught_slot_failures
              (Fixtures.with_body Fixtures.throwingSchema
                 (Fixtures.plainOptions (Fixtures.mockResolvedValue VNull)))
              Fixtures.fooRequest None)))))
         Fixtures.throwingSchema (VObj [("foo", VStr "bar")])
         (VStr "refinement failed") eq_refl eq_refl eq_refl).
Defined.

(* ================================================================== *)
(** ** The auth handlers *)
(* ================================================================== *)

(** X7.  [bearerAuth] never throws: it resolves for every request and
    every [verifyToken] and [transformUser].  Each failure it reports has
    status 401 and one of its two messages; each success has no error. *)
Theorem bearerAuth_always_resolves request options :
  exists res,
    bearerAuth request options = Done res /\
    (success res = false ->
       auth_status res = Some 401%Z /\
       (error res = Some "Missing or invalid authorization header" \/
        error res = Some "Invalid or expired token")) /\
    (success res = true -> error res = None /\ auth_status res = None).
Proof.
  unfold bearerAuth.
  destruct (_ && _); [ eexists; split; [ reflexivity | split; [ discriminate | auto ] ] | ].
  destruct (_ || _); [ eexists; split; [ reflexivity | split; [ auto | discriminate ] ] | ].
  destruct (verifyToken options _) as [payload|e];
    [ destruct (transformUser options) as [transform|];
      [ destruct (transform payload) as [u|e] | ] | ];
    eexists; (split; [ reflexivity | split; simpl; auto; discriminate ]).
Qed.

(** X7, witness: a token that [verifyToken] refuses by throwing. *)
Lemma bearerAuth_always_resolves_witness :
  exists res,
    bearerAuth
      (Fixtures.createMockRequest "POST" None [] [("authorization", "Bearer stale")])
      {| verifyToken := fun _ => Raised (VStr "jwt expired"); required := None;
         transformUser := None |} = Done res /\
    auth_status res = Some 401%Z.
Proof.
  destruct (bearerAuth_always_resolves
              (Fixtures.createMockRequest "POST" None [] [("authorization", "Bearer stale")])
              {| verifyToken := fun _ => Raised (VStr "jwt expired"); required := None;
                 transformUser := None |}) as (res & Hres & Hfail & _).
  exists res. split; [ exact Hres | ].
  apply Hfail. cbn in Hres. inversion Hres. reflexivity.
Defined.

(** X8.  A request without an [authorization] header (or with an empty
    one) is let through by [bearerAuth] with no user exactly when the
    options say [required: false]; otherwise it fails.  A header that is
    present but does not start with "Bearer " fails even when
    authentication is optional.  [verifyToken] plays no part in either. *)
Theorem bearerAuth_without_token request options :
  (missing (headers_get request "authorization") = true ->
     bearerAuth request options =
       Done (match required options with
             | Some false => auth_success VUndefined
             | _ => auth_failure "Missing or invalid authorization header"
             end)) /\
  (forall h,
     headers_get request "authorization" = Some h -> h <> "" ->
     String.prefix "Bearer " h = false ->
     bearerAuth request options =
       Done (auth_failure "Missing or invalid authorization header")).
Proof.
  unfold bearerAuth. split.
  - intros Hm. rewrite Hm.
    destruct (required options) as [[|]|]; reflexivity.
  - intros h Hh Hne Hp. rewrite Hh. simpl. rewrite Hp.
    destruct (String.eqb_spec h "") as [E|_]; [ congruence | ].
    rewrite andb_false_r. reflexivity.
Qed.

(** X8, witness: optional authentication and no header. *)
Lemma bearerAuth_without_token_witness :
  bearerAuth (Fixtures.createMockRequest "GET" None [] [])
    {| verifyToken := fun _ => Raised VNull; required := Some false;
       transformUser := None |} = Done (auth_success VUndefined).
Proof.
  apply (proj1 (bearerAuth_without_token
                  (Fixtures.createMockRequest "GET" None [] [])
                  {| verifyToken := fun _ => Raised VNull; required := Some false;
                     transformUser := None |})).
  reflexivity.
Defined.

Lemma split_first (t rest : string) :
  includes_char " " t = false ->
  rest = EmptyString \/ (exists rest', rest = String " " rest') ->
  exists pieces, split " " (t ++ rest) = t :: pieces.
Proof.
  intros Ht Hrest. induction t as [|c t IH]; simpl in *.
  - destruct Hrest as [->|(rest' & ->)]; simpl; eauto.
  - apply orb_false_iff in Ht. destruct Ht as (Hc & Ht).
    rewrite Hc. destruct (IH Ht) as (pieces & ->). eauto.
Qed.

Lemma bearer_token (t rest : string) :
  includes_char " " t = false ->
  rest = EmptyString \/ (exists rest', rest = String " " rest') ->
  nth 1 (split " " ("Bearer " ++ t ++ rest)) "" = t.
Proof.
  intros Ht Hrest. destruct (split_first t rest Ht Hrest) as (pieces & E).
  cbn. rewrite E. reflexivity.
Qed.

(** X9.  For a header ["Bearer " ++ t], with [t] free of spaces and
    followed by nothing or by a space and more text, [bearerAuth] verifies
    exactly [t].  It succeeds when [verifyToken] resolves and
    [transformUser], if any, returns: the user is the payload, transformed
    when a transformation is given.  When either throws, the failure is
    "Invalid or expired token" and the thrown value is dropped. *)
Theorem bearerAuth_verifies_token request options t rest :
  includes_char " " t = false ->
  rest = EmptyString \/ (exists rest', rest = String " " rest') ->
  headers_get request "authorization" = Some ("Bearer " ++ t ++ rest)%string ->
  bearerAuth request options =
    match verifyToken options t with
    | Done payload =>
        match transformUser options with
        | Some transform =>
            match transform payload with
            | Done u => Done (auth_success u)
            | Raised _ => Done (auth_failure "Invalid or expired token")
            end
        | None => Done (auth_success payload)
        end
    | Raised _ => Done (auth_failure "Invalid or expired token")
    end.
Proof.
  intros Ht Hrest Hh. unfold bearerAuth. rewrite Hh.
  assert (Hm : missing (Some ("Bearer " ++ t ++ rest)%string) = false) by reflexivity.
  rewrite Hm, andb_false_r.
  assert (Hp : String.prefix "Bearer " (from_option (Some ("Bearer " ++ t ++ rest)%string) "")
               = true) by (cbn; destruct (t ++ rest)%string; reflexivity).
  rewrite Hp. simpl orb. cbv iota.
  change (from_option (Some ("Bearer " ++ t ++ rest)%string) "")
    with ("Bearer " ++ t ++ rest)%string.
  rewrite (bearer_token t rest Ht Hrest). reflexivity.
Qed.

(** X9, witness: the valid token of the tests, followed by more text. *)
Lemma bearerAuth_verifies_token_witness :
  bearerAuth
    (Fixtures.createMockRequest "POST" None []
       [("authorization", "Bearer valid-token and more")])
    {| verifyToken := fun t => if String.eqb t "valid-token"
                               then Done (VObj [("id", VStr "user-123")])
                               else Raised (VStr "Invalid token");
       required := None; transformUser := None |} =
    Done (auth_success (VObj [("id", VStr "user-123")])).
Proof.
  apply (bearerAuth_verifies_token
           (Fixtures.createMockRequest "POST" None []
              [("authorization", "Bearer valid-token and more")])
           {| verifyToken := fun t => if String.eqb t "valid-token"
                               then Done (VObj [("id", VStr "user-123")])
                               else Raised (VStr "Invalid token");
              required := None; transformUser := None |}
           "valid-token" " and more" eq_refl
           (or_intror (ex_intro _ "and more" eq_refl)) eq_refl).
Defined.

Lemma auth_success_run o r a u :
  auth o = Some a ->
  auth_handler a r (auth_options a) = Done (auth_success u) ->
  authenticate o r initLocals =
    ([EvAuth (auth_options a)], Normal (set_user initLocals u)).
Proof.
  intros Ha Hres. unfold authenticate, call_auth.
  rewrite Ha. cbn. rewrite Hres. reflexivity.
Qed.

(** X10.  An endpoint protected by [bearerAuth] is never answered with a
    500 on account of authentication.  Either the request is refused with
    status 401 and one of the two messages of [bearerAuth], and nothing
    but the auth handler has run; or validation starts with the verified
    user, and that user is what every call of the business handler
    receives. *)
Theorem apiHandler_with_bearerAuth o r ctx options name :
  auth o = Some (auth_with bearerAuth options name) ->
  (exists message,
     (message = "Missing or invalid authorization header" \/
      message = "Invalid or expired token") /\
     bearerAuth r options = Done (auth_failure message) /\
     apiHandler o r ctx =
       ([EvAuth VUndefined],
        {| status := 401; body := VObj [("error", VStr message)] |})) \/
  (exists u,
     bearerAuth r options = Done (auth_success u) /\
     authenticate o r initLocals = ([EvAuth VUndefined], Normal (set_user initLocals u)) /\
     forall p, In (EvHandler p) (fst (apiHandler o r ctx)) -> hp_user p = u).
Proof.
  intros Ha.
  destruct (bearerAuth_always_resolves r options) as (res & Hres & Hfail & Hok).
  destruct (success res) eqn:Hs.
  - right. destruct (Hok eq_refl) as (He & Hst).
    assert (E : res = auth_success (user res)).
    { destruct res; simpl in *; subst; reflexivity. }
    exists (user res). rewrite Hres, <- E. split; [ reflexivity | ].
    assert (Hauth : authenticate o r initLocals =
                      ([EvAuth VUndefined], Normal (set_user initLocals (user res)))).
    { apply (auth_success_run o r _ (user res) Ha). simpl. rewrite Hres, E.
      reflexivity. }
    split; [ exact Hauth | ].
    intros p Hin. apply handler_call_inv in Hin.
    destruct Hin as (st & Hval & _ & ->). simpl.
    destruct Hval as (ea & st0 & ev & Ha' & Hv).
    apply validate_complete in Hv. destruct Hv as (_ & Hu & _).
    rewrite Hauth in Ha'. inversion Ha'; subst. rewrite Hu. reflexivity.
  - left. destruct (Hfail eq_refl) as (Hst & Hmsg).
    assert (E : forall m, error res = Some m -> res = auth_failure m).
    { intros m Hm. destruct res as [s u e c]; simpl in *; subst.
      unfold auth_failure. f_equal.
      revert Hres. unfold bearerAuth.
      destruct (_ && _); [ discriminate | ].
      destruct (_ || _); [ intros H; inversion H; reflexivity | ].
      destruct (verifyToken options _) as [payload|e];
        [ destruct (transformUser options) as [transform|];
          [ destruct (transform payload) | ] | ];
        intros H; inversion H; reflexivity. }
    assert (Hrun : apiHandler o r ctx =
              ([EvAuth VUndefined],
               {| status := or_number (auth_status res) 401;
                  body := VObj [("error",
                                 VStr (or_string (error res) "Unauthorized"))] |})).
    { rewrite (auth_failure_run o r ctx _ res Ha Hres Hs), Hst.
      destruct Hmsg as [Hm|Hm]; rewrite Hm; reflexivity. }
    rewrite Hst in Hrun.
    destruct Hmsg as [Hm|Hm]; rewrite Hm in Hrun;
      [ exists "Missing or invalid authorization header"
      | exists "Invalid or expired token" ];
      (split; [ auto | ]);
      (split; [ rewrite Hres, (E _ Hm); reflexivity | exact Hrun ]).
Qed.

(** X10, witness: the test 'returns 401 and does not call handler when
    bearer token is missing'. *)
Lemma apiHandler_with_bearerAuth_witness :
  let options := {| verifyToken := fun _ => Raised VNull; required := None;
                    transformUser := None |} in
  let o := Fixtures.with_auth (auth_with bearerAuth options (Some "bearerAuth"))
             Fixtures.fooOptions in
  apiHandler o Fixtures.fooRequest None =
    ([EvAuth VUndefined],
     {| status := 401;
        body := VObj [("error", VStr "Missing or invalid authorization header")] |}).
Proof.
  intros options o.
  destruct (apiHandler_with_bearerAuth o Fixtures.fooRequest None options
              (Some "bearerAuth") eq_refl)
    as [(message & _ & Hb & Hrun)|(u & Hb & _)].
  - inversion Hb; subst. exact Hrun.
  - discriminate Hb.
Defined.

Lemma includes_In (l : list string) (s : string) : includes l s = true <-> In s l.
Proof.
  unfold includes. rewrite existsb_exists. split.
  - intros (x & Hx & E). apply String.eqb_eq in E. subst. exact Hx.
  - intros H. exists s. split; [ exact H | apply String.eqb_refl ].
Qed.

Lemma missing_false (h : option string) :
  missing h = false <-> exists k, h = Some k /\ k <> "".
Proof.
  destruct h as [k|]; simpl.
  - destruct (String.eqb_spec k "") as [->|Hne]; split.
    + discriminate.
    + intros (k' & E & Hne). inversion E; subst. congruence.
    + intros _. eauto.
    + reflexivity.
  - split; [ discriminate | intros (k & E & _); discriminate ].
Qed.

Lemma headers_get_valid request name k :
  headers_get request name = Some k -> valid_header_name name = true.
Proof.
  unfold headers_get. destruct (valid_header_name name);
    [ reflexivity | discriminate ].
Qed.

(** X11.  The header [apiKeyAuth] reads is [options.headerName], or
    [x-api-key] when that is absent or empty, and the request's header of
    that name is found whatever the case of its letters.  When the name is
    not one a header collection accepts (a non-empty HTTP token), reading
    the header throws a [TypeError] and [apiKeyAuth] is rejected with it.
    Otherwise, with a list of valid keys, [apiKeyAuth] resolves.  It
    succeeds exactly when the header is present, not empty, and its value
    is in the list.  The user of a success is the configured one, or the
    built-in [api] user.  Every failure has status 401; its message names
    the header, as configured, when the key is missing and is
    "Invalid API key" otherwise. *)
Theorem apiKeyAuth_key_list request options valid :
  keys options = KeyList valid ->
  (valid_header_name (or_string (headerName options) "x-api-key") = false ->
   apiKeyAuth request options = Raised TypeError) /\
  (valid_header_name (or_string (headerName options) "x-api-key") = true ->
   headers_get request (or_string (headerName options) "x-api-key") =
     find_header (headers request)
       (to_lower (or_string (headerName options) "x-api-key")) /\
   exists res,
     apiKeyAuth request options = Done res /\
     (success res = true <->
        exists k,
          headers_get request (or_string (headerName options) "x-api-key") = Some k /\
          k <> "" /\ In k valid) /\
     (success res = true ->
        user res = match key_user options with
                   | Some u => if truthy u then u else default_api_user
                   | None => default_api_user
                   end) /\
     (success res = false ->
        auth_status res = Some 401%Z /\
        error res =
          Some (if missing (headers_get request
                              (or_string (headerName options) "x-api-key"))
                then ("Missing " ++ or_string (headerName options) "x-api-key"
                      ++ " header")%string
                else "Invalid API key"))).
Proof.
  intros Hk. split; intros Hname.
  { unfold apiKeyAuth. rewrite Hname. reflexivity. }
  split; [ unfold headers_get; rewrite Hname; reflexivity | ].
  unfold apiKeyAuth. rewrite Hk, Hname. cbn [negb].
  destruct (missing (headers_get request _)) eqn:Hm.
  - eexists. split; [ reflexivity | ]. simpl. repeat split; try discriminate.
    intros (k & Hh & Hne & _).
    assert (missing (headers_get request (or_string (headerName options) "x-api-key")) = false)
      by (apply missing_false; eauto).
    congruence.
  - apply missing_false in Hm. destruct Hm as (k & Hh & Hne). rewrite Hh. simpl.
    destruct (includes valid k) eqn:Hi; simpl.
    + eexists. split; [ reflexivity | ]. simpl. repeat split; try discriminate.
      intros _. exists k. repeat split; auto. apply includes_In, Hi.
    + eexists. split; [ reflexivity | ]. simpl. repeat split; try discriminate.
      intros (k' & E & _ & Hin). inversion E; subst.
      apply includes_In in Hin. congruence.
Qed.

(** X11, witness: the header name is configured as [X-API-Key] and the
    request carries a listed key under [x-api-key]. *)
Lemma apiKeyAuth_key_list_witness :
  exists res,
    apiKeyAuth (Fixtures.createMockRequest "GET" None [] [("x-api-key", "k2")])
      {| keys := KeyList ["k1"; "k2"]; headerName := Some "X-API-Key";
         key_user := None |} =
      Done res /\
    success res = true /\ user res = default_api_user.
Proof.
  destruct (proj2 (apiKeyAuth_key_list
              (Fixtures.createMockRequest "GET" None [] [("x-api-key", "k2")])
              {| keys := KeyList ["k1"; "k2"]; headerName := Some "X-API-Key";
                 key_user := None |}
              ["k1"; "k2"] eq_refl) eq_refl)
    as (_ & res & Hres & Hiff & Huser & _).
  assert (Hs : success res = true).
  { apply Hiff. exists "k2". repeat split; [ discriminate | simpl; auto ]. }
  exists res. repeat split; [ exact Hres | exact Hs | exact (Huser Hs) ].
Defined.

(** X12.  When [options.keys] is a function and it throws for the key
    sent, [apiKeyAuth] does not catch it: the rejection reaches
    [apiHandler], which answers with the fixed 500 and calls neither a
    validator nor the business handler. *)
Theorem apiKeyAuth_check_throws request options check k e :
  keys options = KeyFunction check ->
  headers_get request (or_string (headerName options) "x-api-key") = Some k ->
  k <> "" ->
  check k = Raised e ->
  apiKeyAuth request options = Raised e /\
  forall o ctx name,
    auth o = Some (auth_with apiKeyAuth options name) ->
    apiHandler o request ctx =
      ([EvAuth VUndefined; EvConsoleError e],
       {| status := 500; body := VObj [("error", VStr "Internal server error")] |}).
Proof.
  intros Hk Hh Hne Hc.
  assert (E : apiKeyAuth request options = Raised e).
  { unfold apiKeyAuth. rewrite Hk, (headers_get_valid _ _ _ Hh), Hh. simpl.
    destruct (String.eqb_spec k "") as [->|_]; [ congruence | ].
    rewrite Hc. reflexivity. }
  split; [ exact E | ].
  intros o ctx name Ha.
  unfold apiHandler, apiHandler_try, authenticate, call_auth.
  rewrite Ha. cbn. rewrite E. reflexivity.
Qed.

(** X12, witness: a key service that is down. *)
Lemma apiKeyAuth_check_throws_witness :
  apiKeyAuth (Fixtures.createMockRequest "GET" None [] [("x-api-key", "k2")])
    {| keys := KeyFunction (fun _ => Raised (VStr "key service down"));
       headerName := None; key_user := None |} =
    Raised (VStr "key service down").
Proof.
  apply (proj1 (apiKeyAuth_check_throws
                  (Fixtures.createMockRequest "GET" None [] [("x-api-key", "k2")])
                  {| keys := KeyFunction (fun _ => Raised (VStr "key service down"));
                     headerName := None; key_user := None |}
                  (fun _ => Raised (VStr "key service down")) "k2"
                  (VStr "key service down") eq_refl eq_refl
                  (fun H : "k2" = "" => eq_ind "k2"
                     (fun s => match s with EmptyString => False | _ => True end)
                     I "" H)
                  eq_refl)).
Defined.

(* ================================================================== *)
(** ** Normalization, character by character and segment by segment *)
(* ================================================================== *)

Lemma pointwise_refl s : pointwise braced s s.
Proof. induction s; simpl; [ exact I | split; [ left; reflexivity | assumption ] ]. Qed.

Lemma pointwise_prefix g s t :
  pointwise braced s t -> pointwise braced (g ++ s)%string (g ++ t)%string.
Proof.
  intros H. induction g; simpl; [ exact H | ].
  split; [ left; reflexivity | assumption ].
Qed.

Lemma append_empty g : (g ++ "")%string = g.
Proof. induction g; simpl; congruence. Qed.

Lemma pointwise_length R s t : pointwise R s t -> String.length t = String.length s.
Proof.
  revert t. induction s as [|a s IH]; intros [|b t]; simpl; try tauto.
  intros [_ H]. rewrite (IH t H). reflexivity.
Qed.

Lemma replace_brackets_pointwise s :
  pointwise braced s (replace_brackets s) /\
  forall g, pointwise braced (String "[" (g ++ s)%string) (capture s g).
Proof.
  induction s as [|c rest [IHr IHc]]; simpl.
  - split; [ exact I | ].
    intros g. split; [ left; reflexivity | ].
    rewrite append_empty. apply pointwise_refl.
  - split.
    + destruct (Ascii.eqb_spec c "[") as [->|Hc].
      * apply (IHc EmptyString).
      * simpl. split; [ left; reflexivity | exact IHr ].
    + intros g. destruct (Ascii.eqb_spec c "]") as [->|Hc].
      * destruct g as [|c' g]; simpl.
        -- split; [ left; reflexivity | ].
           split; [ left; reflexivity | exact IHr ].
        -- split; [ right; left; split; reflexivity | ].
           split; [ left; reflexivity | ].
           apply pointwise_prefix. simpl.
           split; [ right; right; split; reflexivity | exact IHr ].
      * specialize (IHc (g ++ String c EmptyString)%string).
        rewrite append_cons in IHc. exact IHc.
Qed.

(** X13.  Normalization changes nothing but brackets: the stored path has
    the length of the given one and, position by position, the same
    character, except that a '[' may have become '{' and a ']' '}'. *)
Theorem openApiPath_pointwise path :
  pointwise braced path (openApiPath path) /\
  String.length (openApiPath path) = String.length path.
Proof.
  assert (H : pointwise braced path (openApiPath path)).
  { unfold openApiPath. destruct (includes_char "{" path).
    - apply pointwise_refl.
    - apply replace_brackets_pointwise. }
  split; [ exact H | ]. eapply pointwise_length; eauto.
Qed.

Lemma includes_char_app c s t :
  includes_char c (s ++ t)%string = includes_char c s || includes_char c t.
Proof.
  induction s as [|a s IH]; simpl; [ reflexivity | ].
  rewrite IH, orb_assoc. reflexivity.
Qed.

Lemma replace_brackets_literal text rest :
  includes_char "[" text = false ->
  replace_brackets (text ++ rest) = (text ++ replace_brackets rest)%string.
Proof.
  induction text as [|c text IH]; simpl; [ reflexivity | ].
  destruct (Ascii.eqb c "["); simpl; [ discriminate | ].
  intros H. rewrite (IH H). reflexivity.
Qed.

Lemma capture_name name rest g :
  includes_char "]" name = false ->
  (g ++ name)%string <> EmptyString ->
  capture (name ++ String "]" rest) g =
    String "{" ((g ++ name) ++ String "}" (replace_brackets rest))%string.
Proof.
  revert g. induction name as [|c name IH]; simpl; intros g Hn Hne.
  - rewrite append_empty in *. destruct g; [ congruence | reflexivity ].
  - apply orb_false_iff in Hn. destruct Hn as (Hc & Hn). rewrite Hc.
    rewrite IH; auto.
    + rewrite append_cons. reflexivity.
    + rewrite append_cons. destruct g; discriminate.
Qed.

Lemma render_no_brace template :
  Forall well_formed template ->
  includes_char "{" (render "[" "]" template) = false.
Proof.
  induction 1 as [|seg rest Hseg _ IH]; simpl; [ reflexivity | ].
  destruct seg as [text|name]; simpl in *.
  - rewrite includes_char_app, IH. destruct Hseg as (_ & ->). reflexivity.
  - rewrite includes_char_app. simpl. rewrite IH.
    destruct Hseg as (_ & _ & ->). reflexivity.
Qed.

Lemma replace_brackets_render template :
  Forall well_formed template ->
  replace_brackets (render "[" "]" template) = render "{" "}" template.
Proof.
  induction 1 as [|seg rest Hseg _ IH]; simpl; [ reflexivity | ].
  destruct seg as [text|name]; simpl in *.
  - destruct Hseg as (Hb & _). rewrite (replace_brackets_literal _ _ Hb), IH.
    reflexivity.
  - destruct Hseg as (Hne & Hn & _).
    rewrite (capture_name name _ EmptyString Hn); [ | exact Hne ].
    simpl. rewrite IH. reflexivity.
Qed.

(** X14.  The two dialects of one path template are stored as the same
    path.  For a template whose literal text has no '[' and no '{' and
    whose parameter names are not empty and have no ']' and no '{', the
    path written with [[name]] segments and the path written with [{name}]
    segments are both stored as the path written with [{name}]. *)
Theorem dialects_normalize_alike template :
  Forall well_formed template ->
  openApiPath (render "[" "]" template) = render "{" "}" template /\
  openApiPath (render "{" "}" template) = render "{" "}" template.
Proof.
  intros Hwf.
  assert (E : openApiPath (render "[" "]" template) = render "{" "}" template).
  { unfold openApiPath. rewrite (render_no_brace template Hwf).
    apply replace_brackets_render, Hwf. }
  split; [ exact E | ].
  rewrite <- E. apply openApiPath_idempotent.
Qed.

(** X14, witness: [/posts/[postId]/comments/[id]]. *)
Lemma dialects_normalize_alike_witness :
  openApiPath "/posts/[postId]/comments/[id]" = "/posts/{postId}/comments/{id}" /\
  openApiPath "/posts/{postId}/comments/{id}" = "/posts/{postId}/comments/{id}".
Proof.
  apply (dialects_normalize_alike
           [Literal "/posts/"; Param "postId"; Literal "/comments/"; Param "id"]).
  repeat constructor; discriminate.
Defined.

(* ================================================================== *)
(** ** The registered route *)
(* ================================================================== *)

Lemma obj_get_map_values {A B} (f : A -> B) (o : Obj A) k :
  obj_get (map (fun kv => (fst kv, f (snd kv))) o) k = option_map f (obj_get o k).
Proof.
  induction o as [|[k0 v0] rest IH]; simpl; [ reflexivity | ].
  destruct (String.eqb k0 k); [ reflexivity | exact IH ].
Qed.

Lemma obj_get_rev_NoDup {A} (o : Obj A) k :
  NoDup (obj_keys o) -> obj_get (rev o) k = obj_get o k.
Proof.
  unfold obj_keys. induction o as [|[k0 v0] rest IH]; simpl; [ reflexivity | ].
  intros Hnd. inversion Hnd as [|x l Hnotin Hrest]; subst.
  rewrite obj_get_app, (IH Hrest). simpl.
  destruct (String.eqb_spec k0 k) as [->|Hne].
  - assert (E : obj_get rest k = None) by (apply obj_get_None_keys; exact Hnotin).
    rewrite E. reflexivity.
  - destruct (obj_get rest k); reflexivity.
Qed.

(** The response of a status as [registerOpenApiRoute] generates it. *)
Lemma route_responses_get responseSchema metadata k :
  obj_get (route_responses_of responseSchema metadata) k =
    match obj_get (rev (responses metadata)) k with
    | Some custom => Some (route_response_of custom)
    | None =>
        if String.eqb k "200" then
          option_map (fun s => {| rr_description := "Successful response";
                                  rr_content := json_content (SchemaOf s) |})
                     responseSchema
        else if String.eqb k "400" then
          Some {| rr_description := "Bad request";
                  rr_content := json_content ErrorsRecordSchema |}
        else if String.eqb k "401" then
          Some {| rr_description := "Unauthorized";
                  rr_content := json_content ErrorStringSchema |}
        else if String.eqb k "500" then
          Some {| rr_description := "Internal server error";
                  rr_content := json_content ErrorStringSchema |}
        else None
    end.
Proof.
  unfold route_responses_of.
  rewrite own_properties_get.
  2:{ apply obj_spread_NoDup, obj_spread_NoDup.
      destruct responseSchema; repeat constructor. simpl. tauto. }
  rewrite obj_get_spread, <- map_rev, obj_get_map_values.
  destruct (obj_get (rev (responses metadata)) k) as [custom|];
    cbn [option_map]; [ reflexivity | ].
  destruct (String.eqb_spec k "200") as [->|N2];
    [ destruct responseSchema; reflexivity | ].
  destruct (String.eqb_spec k "400") as [->|N0];
    [ destruct responseSchema; reflexivity | ].
  destruct (String.eqb_spec k "401") as [->|N1];
    [ destruct responseSchema; reflexivity | ].
  destruct (String.eqb_spec k "500") as [->|N5];
    [ destruct responseSchema; reflexivity | ].
  apply obj_get_None_keys. intros Hin.
  apply (obj_spread_has_key _ _ k) in Hin.
  destruct Hin as [Hin|Hin].
  - unfold has_key in Hin.
    destruct responseSchema; simpl in Hin; intuition congruence.
  - simpl in Hin. intuition congruence.
Qed.

Lemma route_responses_has_key responseSchema metadata k :
  has_key (route_responses_of responseSchema metadata) k <->
  (In k match responseSchema with Some _ => ["200"] | None => [] end \/
   In k ["400"; "401"; "500"]) \/
  has_key (responses metadata) k.
Proof.
  unfold route_responses_of.
  rewrite own_properties_has_key, !obj_spread_has_key. unfold has_key, obj_keys.
  rewrite !map_map. simpl.
  assert (E : map (fun x : string * ResponseConfig => fst x) (responses metadata)
              = map fst (responses metadata)) by reflexivity.
  rewrite E. destruct responseSchema; simpl; tauto.
Qed.

(** X15.  The responses of a registered route: [400], [401] and [500] are
    always described; [200] is described exactly when a response schema is
    given or the metadata describes it; a response described in the
    metadata replaces the generated one of the same status.  A status the
    metadata does not mention has the generated response and no other:
    "Successful response" with the response schema for [200] when a
    response schema is given, "Bad request" for [400], "Unauthorized" for
    [401], "Internal server error" for [500], each with its JSON schema,
    and no response for any other status. *)
Theorem registered_responses responseSchema metadata :
  let described := route_responses_of responseSchema metadata in
  has_key described "400" /\ has_key described "401" /\ has_key described "500" /\
  (has_key described "200" <->
     responseSchema <> None \/ has_key (responses metadata) "200") /\
  (forall k custom,
     NoDup (obj_keys (responses metadata)) ->
     obj_get (responses metadata) k = Some custom ->
     obj_get described k = Some (route_response_of custom)) /\
  (forall k,
     ~ has_key (responses metadata) k ->
     obj_get described k =
       if String.eqb k "200" then
         match responseSchema with
         | Some s => Some {| rr_description := "Successful response";
                             rr_content := json_content (SchemaOf s) |}
         | None => None
         end
       else if String.eqb k "400" then
         Some {| rr_description := "Bad request";
                 rr_content := json_content ErrorsRecordSchema |}
       else if String.eqb k "401" then
         Some {| rr_description := "Unauthorized";
                 rr_content := json_content ErrorStringSchema |}
       else if String.eqb k "500" then
         Some {| rr_description := "Internal server error";
                 rr_content := json_content ErrorStringSchema |}
       else None) /\
  (forall method path bs qs ps hs fs a registry,
     exists route,
       definitions (registerOpenApiRoute method path bs qs ps hs fs responseSchema
                      a metadata registry) =
         definitions registry ++ [RouteDefinition route] /\
       route_responses route = described).
Proof.
  intros described. subst described.
  pose proof (route_responses_has_key responseSchema metadata) as Hkey.
  repeat split.
  - apply Hkey. left. right. simpl. auto.
  - apply Hkey. left. right. simpl. auto.
  - apply Hkey. left. right. simpl. auto.
  - intros H. apply Hkey in H. destruct H as [[H|H]|H].
    + left. destruct responseSchema; [ discriminate | destruct H ].
    + simpl in H. destruct H as [H|[H|[H|[]]]]; discriminate.
    + right. exact H.
  - intros [H|H]; apply Hkey.
    + left. left. destruct responseSchema; [ simpl; auto | congruence ].
    + right. exact H.
  - intros k custom Hnd Hget.
    rewrite route_responses_get, (obj_get_rev_NoDup _ _ Hnd), Hget. reflexivity.
  - intros k Hno. rewrite route_responses_get.
    assert (E : obj_get (rev (responses metadata)) k = None).
    { apply obj_get_None_keys. unfold obj_keys. rewrite map_rev, <- in_rev.
      exact Hno. }
    rewrite E. destruct responseSchema; reflexivity.
  - intros. eexists. split; reflexivity.
Qed.

(** X15, witness: a custom [201] is added between the generated [200] and
    [400], and the statuses the metadata does not mention keep their
    generated responses. *)
Lemma registered_responses_witness :
  let custom := {| resp_description := "Created"; resp_content := [] |} in
  let metadata :=
    {| summary := "Create"; description := None; tags := None;
       operationId := None; includeInDocs := None; requestBody := None;
       responses := [("201", custom)] |} in
  obj_get (route_responses_of None metadata) "201" =
    Some {| rr_description := "Created"; rr_content := [] |} /\
  obj_get (route_responses_of None metadata) "401" =
    Some {| rr_description := "Unauthorized";
            rr_content := json_content ErrorStringSchema |} /\
  obj_keys (route_responses_of None metadata) = ["201"; "400"; "401"; "500"].
Proof.
  intros custom metadata.
  destruct (registered_responses None metadata)
    as (_ & _ & _ & _ & Hcustom & Hgenerated & _).
  split; [ | split; [ | reflexivity ] ].
  - apply (Hcustom "201" custom).
    + repeat constructor. simpl. tauto.
    + reflexivity.
  - apply (Hgenerated "401"). unfold has_key. simpl. intros [H|[]]. discriminate.
Defined.

(** X16.  [createDocumentedApiHandler] only ever appends to the registry,
    at most one route per call.  It appends one exactly when the options
    carry [openapi] metadata whose [includeInDocs] is not [false]: an
    endpoint without metadata is not registered, one whose metadata omits
    [includeInDocs] is.  The route has the lower-case method, the
    normalized path and the summary of the metadata; registering the same
    endpoint again adds a second entry. *)
Theorem registration_appends method path o registry :
  match openapi o with
  | None => fst (createDocumentedApiHandler method path o registry) = registry
  | Some metadata =>
      if match includeInDocs metadata with Some false => true | _ => false end
      then fst (createDocumentedApiHandler method path o registry) = registry
      else
        exists route,
          definitions (fst (createDocumentedApiHandler method path o registry)) =
            definitions registry ++ [RouteDefinition route] /\
          route_method route = HttpMethod_toLowerCase method /\
          route_path route = openApiPath path /\
          route_summary route = summary metadata /\
          definitions
            (fst (createDocumentedApiHandler method path o
                    (fst (createDocumentedApiHandler method path o registry)))) =
            definitions registry ++ [RouteDefinition route; RouteDefinition route]
  end.
Proof.
  unfold createDocumentedApiHandler, documented.
  destruct (openapi o) as [metadata|]; [ | reflexivity ].
  destruct (includeInDocs metadata) as [[|]|]; simpl;
    try reflexivity;
    (eexists; repeat split; rewrite <- app_assoc; reflexivity).
Qed.

(* ================================================================== *)
(** ** An exception ends the validation *)
(* ================================================================== *)

Lemma caught_slot_Normal o r ctx s st :
  s = SBody \/ s = SFormData ->
  exists st', slot_phase o r ctx s st = (slot_calls o r ctx s, Normal st').
Proof.
  intros Hs.
  pose proof (slot_calls_fst o r ctx s st) as Hc.
  pose proof (slot_phase_not_Returned o r ctx s st) as Hr.
  pose proof (caught_slots_never_throw o r ctx s st) as Ht.
  destruct (slot_phase o r ctx s st) as [evs [st'|resp|e]]; simpl in *.
  - subst. eauto.
  - exfalso. apply (Hr resp). reflexivity.
  - exfalso. apply (Ht e Hs). reflexivity.
Qed.

(** X17.  Validation is fail-fast on exceptions.  When the query schema
    throws, the body and the form data have been validated, but the
    path-parameter schema, the header schema and the business handler are
    never called; the thrown value is logged and the answer is the fixed
    500, whatever errors the body or the form data had recorded. *)
Theorem query_exception_ends_validation o r ctx schema e ea st0 :
  authenticate o r initLocals = (ea, Normal st0) ->
  querySchema o = Some schema ->
  safeParse schema (query_raw r) = Raised e ->
  apiHandler o r ctx =
    (ea ++ slot_calls o r ctx SBody ++ slot_calls o r ctx SFormData ++
       [EvSafeParse SQuery (query_raw r); EvConsoleError e],
     {| status := 500; body := VObj [("error", VStr "Internal server error")] |}) /\
  handler_calls (fst (apiHandler o r ctx)) = 0 /\
  forall raw,
    ~ In (EvSafeParse SPathParams raw) (fst (apiHandler o r ctx)) /\
    ~ In (EvSafeParse SHeaders raw) (fst (apiHandler o r ctx)).
Proof.
  intros Ha Hs Hp.
  destruct (caught_slot_Normal o r ctx SBody st0 (or_introl eq_refl)) as (st1 & H1).
  destruct (caught_slot_Normal o r ctx SFormData st1 (or_intror eq_refl)) as (st2 & H2).
  assert (H3 : validateQuery o r st2 = ([EvSafeParse SQuery (query_raw r)], Thrown e)).
  { unfold validateQuery, call_safeParse. rewrite Hs. cbn.
    fold (query_raw r). rewrite Hp. reflexivity. }
  assert (Hv : validate o r ctx st0 =
                 (slot_calls o r ctx SBody ++ slot_calls o r ctx SFormData ++
                    [EvSafeParse SQuery (query_raw r)], Thrown e)).
  { unfold validate. simpl in H1, H2.
    rewrite H1. cbn. rewrite H2. cbn. rewrite H3. cbn. reflexivity. }
  assert (Hrun : apiHandler o r ctx =
    (ea ++ slot_calls o r ctx SBody ++ slot_calls o r ctx SFormData ++
       [EvSafeParse SQuery (query_raw r); EvConsoleError e],
     {| status := 500; body := VObj [("error", VStr "Internal server error")] |})).
  { unfold apiHandler, apiHandler_try. rewrite Ha. cbn. rewrite Hv. cbn.
    rewrite <- !app_assoc. reflexivity. }
  pose proof (authenticate_quiet _ _ _ _ _ Ha) as Hea.
  pose proof (slot_calls_slot o r ctx SBody) as Hb.
  pose proof (slot_calls_slot o r ctx SFormData) as Hf.
  rewrite Forall_forall in Hea, Hb, Hf.
  split; [ exact Hrun | ]. rewrite Hrun. simpl fst. split.
  - rewrite !handler_calls_app.
    rewrite (authenticate_no_handler _ _ _ _ _ Ha).
    rewrite (handler_calls_none (slot_calls o r ctx SBody)),
      (handler_calls_none (slot_calls o r ctx SFormData)); [ reflexivity | | ].
    + apply Forall_forall. intros ev Hin. apply Hf in Hin.
      destruct ev; simpl in *; reflexivity || discriminate.
    + apply Forall_forall. intros ev Hin. apply Hb in Hin.
      destruct ev; simpl in *; reflexivity || discriminate.
  - intros raw. split; intros Hin; rewrite !in_app_iff in Hin;
      destruct Hin as [Hin|[Hin|[Hin|Hin]]];
      try (apply Hea in Hin; destruct Hin as (_ & Hin); discriminate);
      try (apply Hb in Hin; discriminate);
      try (apply Hf in Hin; discriminate);
      simpl in Hin; destruct Hin as [Hin|[Hin|[]]]; discriminate.
Qed.

(** X17, witness: a throwing query schema in front of a header schema. *)
Lemma query_exception_ends_validation_witness :
  let o := Fixtures.with_query Fixtures.throwingSchema
             (Fixtures.with_headers Fixtures.customHeaderSchema
                (Fixtures.plainOptions (Fixtures.mockResolvedValue VNull))) in
  fst (apiHandler o Fixtures.invalidQueryHeaderRequest None) =
    [EvSafeParse SQuery (VObj [("q", VStr "a")]);
     EvConsoleError (VStr "refinement failed")].
Proof.
  intros o.
  destruct (query_exception_ends_validation o Fixtures.invalidQueryHeaderRequest None
              Fixtures.throwingSchema (VStr "refinement failed") [] initLocals
              eq_refl eq_refl eq_refl) as (Hrun & _).
  rewrite Hrun. reflexivity.
Defined.
